(** * A 3x3 Rubik's cube: facelet model, face turns, validation, solver adapter

    Shallow embedding of [cube_model.py] (class [RubiksCube]), of
    [cube_solver.py] (class [RubiksCubeSolver]) and of the two solving
    routes of [app.py] ([solve_manual], [solve_vision]).

    Modelling choices, all read off the source:
    - a colour is a Python string;
    - a face is a list of three rows of three cells.  [__init__] and
      [set_face] are the only places that create a face and both build
      three fresh rows of three cells; every helper keeps that shape.  The
      grid is therefore a fixed 3x3 array, indexed by [idx] (the values of
      [range(3)], closed under [2 - i]);
    - [self.faces] is a dict with the six fixed keys ['up'], ['down'],
      ['front'], ['back'], ['right'], ['left'] (in that insertion order);
    - no row object is ever shared between two faces: every row stored
      into a face is a [.copy()] or a fresh list comprehension, so in-place
      cell writes are modelled by functional update of the one cell;
    - a method that mutates [self] is a function from the state before to
      the state after; a method that can raise returns an [outcome] that
      also carries the state of the receiver at the time of the raise. *)

From stdpp Require Import base gmap strings list fin_sets.
From Stdlib Require Import Ascii.

Local Open Scope string_scope.

(** ** Data model *)

Definition color := string.

(** The values taken by [range(3)]. *)
Inductive idx := I0 | I1 | I2.

Definition range3 : list idx := [I0; I1; I2].

(** [2 - i] for [i] in [range(3)]. *)
Definition two_minus (i : idx) : idx :=
  match i with I0 => I2 | I1 => I1 | I2 => I0 end.

Record row := Row { c0 : color; c1 : color; c2 : color }.

Record face := Grid { r0 : row; r1 : row; r2 : row }.

(** The keys of [self.faces]. *)
Inductive face_name := Up | Down | Front | Back | Right | Left.

(** [self.faces], fields in the insertion order of the dict. *)
Record cube := Cube {
  faces_up : face;
  faces_down : face;
  faces_front : face;
  faces_back : face;
  faces_right : face;
  faces_left : face
}.

(** [r[j]] *)
Definition row_get (r : row) (j : idx) : color :=
  match j with I0 => c0 r | I1 => c1 r | I2 => c2 r end.

(** [r[j] = v] *)
Definition row_set (r : row) (j : idx) (v : color) : row :=
  match j with
  | I0 => Row v (c1 r) (c2 r)
  | I1 => Row (c0 r) v (c2 r)
  | I2 => Row (c0 r) (c1 r) v
  end.

(** [[g(i) for i in range(3)]] *)
Definition row_comp (g : idx → color) : row := Row (g I0) (g I1) (g I2).

(** [f[i]] *)
Definition face_row (f : face) (i : idx) : row :=
  match i with I0 => r0 f | I1 => r1 f | I2 => r2 f end.

(** [f[i] = r] *)
Definition face_set_row (f : face) (i : idx) (r : row) : face :=
  match i with
  | I0 => Grid r (r1 f) (r2 f)
  | I1 => Grid (r0 f) r (r2 f)
  | I2 => Grid (r0 f) (r1 f) r
  end.

(** [[g(i) for i in range(3)]] where [g(i)] is a row *)
Definition face_comp (g : idx → row) : face := Grid (g I0) (g I1) (g I2).

(** [self.faces[n]] *)
Definition faces (s : cube) (n : face_name) : face :=
  match n with
  | Up => faces_up s
  | Down => faces_down s
  | Front => faces_front s
  | Back => faces_back s
  | Right => faces_right s
  | Left => faces_left s
  end.

(** [self.faces[n] = f] *)
Definition set_faces (n : face_name) (f : face) (s : cube) : cube :=
  match n with
  | Up => Cube f (faces_down s) (faces_front s) (faces_back s) (faces_right s) (faces_left s)
  | Down => Cube (faces_up s) f (faces_front s) (faces_back s) (faces_right s) (faces_left s)
  | Front => Cube (faces_up s) (faces_down s) f (faces_back s) (faces_right s) (faces_left s)
  | Back => Cube (faces_up s) (faces_down s) (faces_front s) f (faces_right s) (faces_left s)
  | Right => Cube (faces_up s) (faces_down s) (faces_front s) (faces_back s) f (faces_left s)
  | Left => Cube (faces_up s) (faces_down s) (faces_front s) (faces_back s) (faces_right s) f
  end.

(** [self.faces[n][i]] (the callers take a [.copy()], which is the value) *)
Definition get_row (s : cube) (n : face_name) (i : idx) : row :=
  face_row (faces s n) i.

(** [self.faces[n][i] = r] *)
Definition set_row (n : face_name) (i : idx) (r : row) (s : cube) : cube :=
  set_faces n (face_set_row (faces s n) i r) s.

(** [self.faces[n][i][j]] *)
Definition cell (s : cube) (n : face_name) (i j : idx) : color :=
  row_get (get_row s n i) j.

(** [self.faces[n][i][j] = v] *)
Definition set_cell (n : face_name) (i j : idx) (v : color) (s : cube) : cube :=
  set_row n i (row_set (get_row s n i) j v) s.

(** [for i in range(3): body], the body acting on the state. *)
Definition for_range3 (body : idx → cube → cube) (s : cube) : cube :=
  foldl (λ s i, body i s) s range3.

(** [[[c] * 3 for _ in range(3)]] *)
Definition uniform_face (c : color) : face :=
  face_comp (λ _, Row c c c).

(** [RubiksCube.__init__] *)
Definition new : cube :=
  {| faces_up := uniform_face "W";
     faces_down := uniform_face "Y";
     faces_front := uniform_face "R";
     faces_back := uniform_face "O";
     faces_right := uniform_face "B";
     faces_left := uniform_face "G" |}.

(** [RubiksCube.copy]: [copy.deepcopy] of the faces; a value is its own
    deep copy. *)
Definition copy (s : cube) : cube := s.

(** The order of [self.faces.keys()], [.values()] and [.items()]. *)
Definition face_keys : list face_name := [Up; Down; Front; Back; Right; Left].

(** The rows of a face, then the cells of a row, in iteration order. *)
Definition face_rows (f : face) : list row := [r0 f; r1 f; r2 f].
Definition row_cells (r : row) : list color := [c0 r; c1 r; c2 r].

(** The cells visited by [for row in face: for color in row]. *)
Definition face_cells (f : face) : list color :=
  concat (map row_cells (face_rows f)).

(** [get_face_flat]: [[face[i][j] for i in range(3) for j in range(3)]] *)
Definition get_face_flat (s : cube) (n : face_name) : list color :=
  concat (map (λ i, map (λ j, row_get (face_row (faces s n) i) j) range3) range3).

(** ** Face turns *)

(** [_rotate_face] *)
Definition _rotate_face (n : face_name) (clockwise : bool) (s : cube) : cube :=
  let f := faces s n in
  if clockwise then
    set_faces n (face_comp (λ i, row_comp (λ j, row_get (face_row f (two_minus j)) i))) s
  else
    set_faces n (face_comp (λ i, row_comp (λ j, row_get (face_row f j) (two_minus i)))) s.

(** [_rotate_up] *)
Definition _rotate_up (clockwise : bool) (s : cube) : cube :=
  let s := _rotate_face Up clockwise s in
  let temp := get_row s Front I0 in
  if clockwise then
    let s := set_row Front I0 (get_row s Right I0) s in
    let s := set_row Right I0 (get_row s Back I0) s in
    let s := set_row Back I0 (get_row s Left I0) s in
    set_row Left I0 temp s
  else
    let s := set_row Front I0 (get_row s Left I0) s in
    let s := set_row Left I0 (get_row s Back I0) s in
    let s := set_row Back I0 (get_row s Right I0) s in
    set_row Right I0 temp s.

(** [_rotate_down] *)
Definition _rotate_down (clockwise : bool) (s : cube) : cube :=
  let s := _rotate_face Down clockwise s in
  let temp := get_row s Front I2 in
  if clockwise then
    let s := set_row Front I2 (get_row s Left I2) s in
    let s := set_row Left I2 (get_row s Back I2) s in
    let s := set_row Back I2 (get_row s Right I2) s in
    set_row Right I2 temp s
  else
    let s := set_row Front I2 (get_row s Right I2) s in
    let s := set_row Right I2 (get_row s Back I2) s in
    let s := set_row Back I2 (get_row s Left I2) s in
    set_row Left I2 temp s.

(** [_rotate_right] *)
Definition _rotate_right (clockwise : bool) (s : cube) : cube :=
  let s := _rotate_face Right clockwise s in
  let temp := row_comp (λ i, cell s Front i I2) in
  if clockwise then
    for_range3 (λ i s,
      let s := set_cell Front i I2 (cell s Down i I2) s in
      let s := set_cell Down i I2 (cell s Back (two_minus i) I0) s in
      let s := set_cell Back (two_minus i) I0 (cell s Up i I2) s in
      set_cell Up i I2 (row_get temp i) s) s
  else
    for_range3 (λ i s,
      let s := set_cell Front i I2 (cell s Up i I2) s in
      let s := set_cell Up i I2 (cell s Back (two_minus i) I0) s in
      let s := set_cell Back (two_minus i) I0 (cell s Down i I2) s in
      set_cell Down i I2 (row_get temp i) s) s.

(** [_rotate_left] *)
Definition _rotate_left (clockwise : bool) (s : cube) : cube :=
  let s := _rotate_face Left clockwise s in
  let temp := row_comp (λ i, cell s Front i I0) in
  if clockwise then
    for_range3 (λ i s,
      let s := set_cell Front i I0 (cell s Up i I0) s in
      let s := set_cell Up i I0 (cell s Back (two_minus i) I2) s in
      let s := set_cell Back (two_minus i) I2 (cell s Down i I0) s in
      set_cell Down i I0 (row_get temp i) s) s
  else
    for_range3 (λ i s,
      let s := set_cell Front i I0 (cell s Down i I0) s in
      let s := set_cell Down i I0 (cell s Back (two_minus i) I2) s in
      let s := set_cell Back (two_minus i) I2 (cell s Up i I0) s in
      set_cell Up i I0 (row_get temp i) s) s.

(** [_rotate_front] *)
Definition _rotate_front (clockwise : bool) (s : cube) : cube :=
  let s := _rotate_face Front clockwise s in
  if clockwise then
    let temp := get_row s Up I2 in
    let s := set_row Up I2 (row_comp (λ i, cell s Left (two_minus i) I2)) s in
    let s := for_range3 (λ i s, set_cell Left i I2 (cell s Down I0 i) s) s in
    let s := set_row Down I0 (row_comp (λ i, cell s Right (two_minus i) I0)) s in
    for_range3 (λ i s, set_cell Right i I0 (row_get temp i) s) s
  else
    let temp := get_row s Up I2 in
    let s := for_range3 (λ i s, set_cell Up I2 i (cell s Right i I0) s) s in
    let s :=
      set_faces Right
        (face_comp (λ i, row_comp (λ j,
           match j with
           | I0 => cell s Down I0 (two_minus i)
           | _ => cell s Right i j
           end))) s in
    let s := for_range3 (λ i s, set_cell Down I0 i (cell s Left i I2) s) s in
    for_range3 (λ i s, set_cell Left i I2 (row_get temp (two_minus i)) s) s.

(** [_rotate_back] *)
Definition _rotate_back (clockwise : bool) (s : cube) : cube :=
  let s := _rotate_face Back clockwise s in
  if clockwise then
    let temp := get_row s Up I0 in
    let s := for_range3 (λ i s, set_cell Up I0 i (cell s Right i I2) s) s in
    let s := for_range3 (λ i s, set_cell Right i I2 (cell s Down I2 (two_minus i)) s) s in
    let s := set_row Down I2 (row_comp (λ i, cell s Left (two_minus i) I0)) s in
    for_range3 (λ i s, set_cell Left i I0 (row_get temp (two_minus i)) s) s
  else
    let temp := get_row s Up I0 in
    let s := set_row Up I0 (row_comp (λ i, cell s Left (two_minus i) I0)) s in
    let s := for_range3 (λ i s, set_cell Left i I0 (cell s Down I2 i) s) s in
    let s := for_range3 (λ i s, set_cell Down I2 i (cell s Right (two_minus i) I2) s) s in
    for_range3 (λ i s, set_cell Right i I2 (row_get temp i) s) s.

(** ** Strings, exceptions, outcomes *)

(** [s.endswith(suf)] *)
Fixpoint endswith (s suf : string) : bool :=
  String.eqb s suf ||
  match s with
  | EmptyString => false
  | String _ rest => endswith rest suf
  end.

(** [s[:-1]]: all but the last character (the empty string stays empty). *)
Fixpoint drop_last (s : string) : string :=
  match s with
  | EmptyString => EmptyString
  | String _ EmptyString => EmptyString
  | String a rest => String a (drop_last rest)
  end.

(** The exceptions the two classes can raise from their own code. *)
Inductive exn :=
  | ValueError (msg : string)
  | KeyError (key : string).

(** Result of a mutating method: it returns, or it raises; either way the
    receiver is left in the state [s]. *)
Inductive outcome :=
  | Ok (s : cube)
  | Raise (e : exn) (s : cube).

(** Sequencing of two statements: the second runs only if the first
    returned. *)
Definition and_then (r : outcome) (k : cube → outcome) : outcome :=
  match r with
  | Ok s => k s
  | Raise e s => Raise e s
  end.

(** The receiver's state after the call, raised or not. *)
Definition state_of (r : outcome) : cube :=
  match r with Ok s => s | Raise _ s => s end.

(** ** Face assignment *)

(** [face_name in self.faces], with the key found. *)
Definition face_of_key (k : string) : option face_name :=
  if String.eqb k "up" then Some Up
  else if String.eqb k "down" then Some Down
  else if String.eqb k "front" then Some Front
  else if String.eqb k "back" then Some Back
  else if String.eqb k "right" then Some Right
  else if String.eqb k "left" then Some Left
  else None.

(** [set_face] *)
Definition set_face (face_name : string) (colors : list color) (s : cube) : outcome :=
  match face_of_key face_name with
  | None => Raise (ValueError ("Invalid face name: " ++ face_name)) s
  | Some n =>
      match colors with
      | [a0; a1; a2; a3; a4; a5; a6; a7; a8] =>
          Ok (set_faces n (Grid (Row a0 a1 a2) (Row a3 a4 a5) (Row a6 a7 a8)) s)
      | _ => Raise (ValueError "Face must have exactly 9 colors") s
      end
  end.

(** ** Moves *)

(** [_apply_base_move] *)
Definition _apply_base_move (move : string) (clockwise : bool) (s : cube) : outcome :=
  if String.eqb move "U" then Ok (_rotate_up clockwise s)
  else if String.eqb move "D" then Ok (_rotate_down clockwise s)
  else if String.eqb move "L" then Ok (_rotate_left clockwise s)
  else if String.eqb move "R" then Ok (_rotate_right clockwise s)
  else if String.eqb move "F" then Ok (_rotate_front clockwise s)
  else if String.eqb move "B" then Ok (_rotate_back clockwise s)
  else Raise (ValueError ("Invalid move: " ++ move)) s.

(** [apply_move] *)
Definition apply_move (move : string) (s : cube) : outcome :=
  if endswith move "'" then
    let base_move := drop_last move in
    _apply_base_move base_move false s
  else if endswith move "2" then
    let base_move := drop_last move in
    and_then (_apply_base_move base_move true s)
             (_apply_base_move base_move true)
  else
    _apply_base_move move true s.

(** A caller applying a list of moves one after the other, as in
    [for m in moves: cube.apply_move(m)]. *)
Definition apply_moves (moves : list string) (s : cube) : outcome :=
  foldl (λ r m, and_then r (apply_move m)) (Ok s) moves.

(** The base moves and the 18-symbol alphabet. *)
Definition base_moves : list string := ["U"; "D"; "L"; "R"; "F"; "B"].

Definition alphabet : list string :=
  base_moves ≫= λ X, [X; X ++ "'"; X ++ "2"].

(** ** Solved and valid *)

(** [face[1][1]] of the named face. *)
Definition center (s : cube) (n : face_name) : color := cell s n I1 I1.

(** [is_solved]: the loops return [False] at the first cell that differs
    from its face's centre, [True] when none does. *)
Definition is_solved (s : cube) : bool :=
  forallb (λ n,
    let face := faces s n in
    let center_color := row_get (face_row face I1) I1 in
    forallb (λ row,
      forallb (λ color, bool_decide (color = center_color)) (row_cells row))
      (face_rows face))
    face_keys.

(** The cells in the order the counting loop of [is_valid] visits them. *)
Definition all_cells (s : cube) : list color :=
  face_keys ≫= λ n, face_cells (faces s n).

(** [color_count.get(color, 0)] *)
Definition get0 (color_count : gmap color nat) (color : color) : nat :=
  default 0 (color_count !! color).

(** The counting loop: [color_count[color] = color_count.get(color, 0) + 1]. *)
Definition count_colors (cells : list color) : gmap color nat :=
  foldl (λ color_count color, <[color := get0 color_count color + 1]> color_count)
        ∅ cells.

(** [_validate_pieces] *)
Definition _validate_pieces (s : cube) : bool := true.

(** [is_valid].  Colours are strings, hence hashable, and the grid is 3x3:
    nothing in the [try] block raises, so the [except] branch is dead. *)
Definition is_valid (s : cube) : bool :=
  let color_count := count_colors (all_cells s) in
  if existsb (λ color, negb (Nat.eqb (get0 color_count color) 9))
             ["W"; "Y"; "R"; "O"; "B"; "G"]
  then false
  else
    let centers := map (center s) face_keys in
    if negb (Nat.eqb (size (list_to_set centers : gset color)) 6) then false
    else _validate_pieces s.

(** ** The solver adapter ([cube_solver.py]) *)

(** [str.isspace] on one character; a string is a sequence of code points
    below 256. *)
Definition isspace (a : ascii) : bool :=
  let n := nat_of_ascii a in
  (Nat.leb 9 n && Nat.leb n 13) || (Nat.leb 28 n && Nat.leb n 32)
  || Nat.eqb n 133 || Nat.eqb n 160.

(** [str.split()] without argument: the maximal runs of non-space
    characters.  [cur] is the token being read. *)
Fixpoint split_from (cur s : string) : list string :=
  match s with
  | EmptyString => if String.eqb cur "" then [] else [cur]
  | String a rest =>
      if isspace a then
        if String.eqb cur "" then split_from "" rest
        else cur :: split_from "" rest
      else split_from (cur ++ String a "") rest
  end.

Definition split (s : string) : list string := split_from "" s.

(** The attributes of a [RubiksCubeSolver]. *)
Record RubiksCubeSolver := Solver {
  solver_cube : cube;
  solution : list string
}.

(** [RubiksCubeSolver.__init__] *)
Definition solver_init (c : cube) : RubiksCubeSolver :=
  {| solver_cube := copy c; solution := [] |}.

(** [face_order] and the letters zipped with it. *)
Definition face_order : list face_name := [Up; Right; Front; Down; Left; Back].
Definition face_letters : list string := ["U"; "R"; "F"; "D"; "L"; "B"].

(** The dictionary [color_map] after the loop over
    [zip(face_order, letters)]; [center_colors[face]] is the centre of
    [face]. *)
Definition kociemba_color_map (c : cube) : gmap color string :=
  let center_colors := center c in
  foldl (λ color_map (fl : face_name * string),
           <[center_colors fl.1 := fl.2]> color_map)
        ∅ (zip face_order face_letters).

(** The cells in the order the encoding loop visits them. *)
Definition kociemba_cells (c : cube) : list color :=
  face_order ≫= λ face, face_cells (faces c face).

(** [cube_str += color_map[cell]] over the cells; a missing key raises
    [KeyError]. *)
Fixpoint translate_cells (color_map : gmap color string) (cells : list color)
    (cube_str : string) : exn + string :=
  match cells with
  | [] => inr cube_str
  | cell :: rest =>
      match color_map !! cell with
      | Some letter => translate_cells color_map rest (cube_str ++ letter)
      | None => inl (KeyError cell)
      end
  end.

(** [_to_kociemba_string] *)
Definition _to_kociemba_string (c : cube) : exn + string :=
  translate_cells (kociemba_color_map c) (kociemba_cells c) "".

(** [_generate_simple_solution] *)
Definition _generate_simple_solution : list string :=
  let simple_moves :=
    ["F2"; "R2"; "U2"; "B2"; "L2"; "R"; "U"; "R'"; "U'"; "F";
     "R"; "U"; "R'"; "U'"; "F'"] in
  take 25 simple_moves.

(** What one call of the external [kociemba.solve] does: it returns a
    string or raises an exception (an instance of [Exception], which is
    what the [except] clause catches). *)
Inductive reply :=
  | Returns (solution_str : string)
  | Raises (error : string).

(** What a call of [solve] produces: the arguments of the calls it made to
    [kociemba.solve], in order; the value of [self.solution] afterwards;
    and the list it returned, or the exception it let through. *)
Record solve_run := SolveRun {
  calls : list string;
  solution_after : list string;
  returned : exn + list string
}.

Section Solver.

(** The external collaborator [kociemba.solve], any behaviour. *)
Variable kociemba_solve : string → reply.

(** [RubiksCubeSolver.solve] *)
Definition solve (self : RubiksCubeSolver) : solve_run :=
  let solution : list string := [] in
  if is_solved (solver_cube self) then SolveRun [] solution (inr solution)
  else if negb (is_valid (solver_cube self)) then
    SolveRun [] solution (inr solution)
  else
    match _to_kociemba_string (solver_cube self) with
    | inl e => SolveRun [] solution (inl e)
    | inr cube_str =>
        match kociemba_solve cube_str with
        | Returns solution_str =>
            let solution := split solution_str in
            SolveRun [cube_str] solution (inr solution)
        | Raises _ =>
            let solution := _generate_simple_solution in
            SolveRun [cube_str] solution (inr solution)
        end
    end.

End Solver.

(** ** Vocabulary of the statements *)

(** The six colour codes [is_valid] counts. *)
Definition six_colors : list color := ["W"; "Y"; "R"; "O"; "B"; "G"].

(** The six centre cells, in the order of [self.faces.keys()]. *)
Definition centers (s : cube) : list color := map (center s) face_keys.

(** Number of cells of [l] equal to [c]. *)
Definition occ (c : color) (l : list color) : nat :=
  sum_list_with (λ x, if bool_decide (x = c) then 1 else 0) l.

(** The five base moves other than the back face. *)
Definition sound_bases : list string := ["U"; "D"; "L"; "R"; "F"].

(** [flip_column n j] reverses column [j] of face [n]; [flip_row n i]
    reverses row [i] of face [n]. *)
Definition flip_column (n : face_name) (j : idx) (s : cube) : cube :=
  for_range3 (λ i s', set_cell n i j (cell s n (two_minus i) j) s') s.

Definition flip_row (n : face_name) (i : idx) (s : cube) : cube :=
  for_range3 (λ j s', set_cell n i j (cell s n i (two_minus j)) s') s.

(** The cube after the single move [U] from the solved cube. *)
Definition after_U : cube := state_of (apply_move "U" new).

(** An invalid cube on which the encoding raises: the front face's first
    cell holds a colour that is no centre. *)
Definition stray_cube : cube :=
  state_of (set_face "front" ["X"; "R"; "R"; "R"; "R"; "R"; "R"; "R"; "R"] new).

(** The 15 tokens of the fallback. *)
Definition fallback : list string :=
  ["F2"; "R2"; "U2"; "B2"; "L2"; "R"; "U"; "R'"; "U'"; "F";
   "R"; "U"; "R'"; "U'"; "F'"].

(** The inverse of a move symbol ([X] and [X'] undo each other, [X2] undoes
    itself) and the reversed-and-inverted sequence. *)
Definition inverse_move (m : string) : string :=
  if endswith m "'" then drop_last m
  else if endswith m "2" then m
  else m ++ "'".

Definition inverse_sequence (ms : list string) : list string :=
  inverse_move <$> reverse ms.

(** The 15 symbols that do not turn the back face. *)
Definition sound_alphabet : list string :=
  sound_bases ≫= λ X, [X; X ++ "'"; X ++ "2"].

(** The cube whose 54 cells, read in the order of [all_cells], are [l]. *)
Definition cube_of_cells (l : list color) : cube :=
  let at_ k := nth k l "" in
  let face_at k :=
    Grid (Row (at_ k) (at_ (k + 1)) (at_ (k + 2)))
         (Row (at_ (k + 3)) (at_ (k + 4)) (at_ (k + 5)))
         (Row (at_ (k + 6)) (at_ (k + 7)) (at_ (k + 8))) in
  Cube (face_at 0) (face_at 9) (face_at 18) (face_at 27) (face_at 36) (face_at 45).

(** Positions 0..53 written as one-character colours, and back. *)
Definition position_label (i : nat) : color := String (ascii_of_nat i) "".

Definition label_position (c : color) : nat :=
  match c with
  | String a _ => nat_of_ascii a
  | EmptyString => 0
  end.

(** For each position of the cube after the move, the position its cell
    came from: the move run on the cube that holds its own positions. *)
Definition move_positions (m : string) : list nat :=
  label_position <$>
    all_cells (state_of (apply_move m (cube_of_cells (position_label <$> seq 0 54)))).

(** ** Further operations of [RubiksCube] *)

(** The keys of [self.faces] as the strings a caller passes. *)
Definition face_key_names : list string :=
  ["up"; "down"; "front"; "back"; "right"; "left"].

(** [get_face_flat] called with a string: [self.faces[face_name]] raises
    [KeyError] on a string that is no key. *)
Definition get_face_flat_key (face_name : string) (s : cube) : exn + list color :=
  match face_of_key face_name with
  | None => inl (KeyError face_name)
  | Some n => inr (get_face_flat s n)
  end.

(** Equality of face keys is decidable. *)
#[global] Instance face_name_eq_dec : EqDecision face_name.
Proof. solve_decision. Defined.

(** The symbols built on one base move. *)
Definition variants (X : string) : list string := [X; X ++ "'"; X ++ "2"].

(** For each base move, the face [_apply_base_move] hands to
    [_rotate_face] and the face across the cube from it. *)
Definition turned_and_opposite : list (string * (face_name * face_name)) :=
  [("U", (Up, Down)); ("D", (Down, Up)); ("L", (Left, Right));
   ("R", (Right, Left)); ("F", (Front, Back)); ("B", (Back, Front))].

(** The cube with every cell recoloured by [f]. *)
Definition recolor_row (f : color → color) (r : row) : row :=
  Row (f (c0 r)) (f (c1 r)) (f (c2 r)).

Definition recolor_face (f : color → color) (g : face) : face :=
  Grid (recolor_row f (r0 g)) (recolor_row f (r1 g)) (recolor_row f (r2 g)).

Definition recolor (f : color → color) (s : cube) : cube :=
  Cube (recolor_face f (faces_up s)) (recolor_face f (faces_down s))
       (recolor_face f (faces_front s)) (recolor_face f (faces_back s))
       (recolor_face f (faces_right s)) (recolor_face f (faces_left s)).

(** ** Vocabulary for the solver adapter *)

(** [" ".join(tokens)] *)
Fixpoint join_spaces (tokens : list string) : string :=
  match tokens with
  | [] => ""
  | [t] => t
  | t :: rest => t ++ " " ++ join_spaces rest
  end.

(** A non-empty string without a whitespace character. *)
Definition is_token (t : string) : bool :=
  negb (String.eqb t "") && forallb (λ a, negb (isspace a)) (String.list_ascii_of_string t).

(** Number of occurrences of a character in a list of characters. *)
Definition char_count (a : ascii) (l : list ascii) : nat :=
  sum_list_with (λ b, if bool_decide (b = a) then 1 else 0) l.

(** The letters of [face_letters] as characters, and the positions of the
    six centres in the encoded string. *)
Definition letter_chars : list ascii := ["U"; "R"; "F"; "D"; "L"; "B"]%char.

Definition center_positions : list nat := [4; 13; 22; 31; 40; 49].

(** ** The solving routes of [app.py] *)

(** The JSON object a route reads the faces from: face name to list of
    colour codes.  (The model covers bodies of that shape; a key that is
    absent is the [KeyError] of [cube_data[face_name]].) *)
Abbreviation cube_json := (gmap string (list color)).

(** The body of a response: the success object, an error with a fixed
    text, or an error whose text is [str(e)] of a caught exception. *)
Inductive body :=
  | SolvedBody (solution : list string) (move_count : nat)
  | ErrorText (msg : string)
  | ErrorOf (e : exn).

(** A response: HTTP status and body ([jsonify(...)] alone is status 200). *)
Record response := Response { status : nat; payload : body }.

(** The list [faces] of both routes. *)
Definition route_faces : list string :=
  ["up"; "right"; "front"; "down"; "left"; "back"].

(** [for face_name in faces: cube.set_face(face_name, cube_data[face_name])] *)
Fixpoint load_faces (cube_data : cube_json) (names : list string) (s : cube)
    : outcome :=
  match names with
  | [] => Ok s
  | face_name :: rest =>
      match cube_data !! face_name with
      | None => Raise (KeyError face_name) s
      | Some face_colors =>
          and_then (set_face face_name face_colors s) (load_faces cube_data rest)
      end
  end.

(** What a route call produces: the response and the calls made to
    [kociemba.solve]. *)
Record route_run := RouteRun {
  route_response : response;
  route_calls : list string
}.

(** [solve_manual].  An exception raised inside the [try] block is caught
    by [except Exception] and answered with status 500. *)
Definition solve_manual (kociemba_solve : string → reply) (cube_data : cube_json)
    : route_run :=
  match load_faces cube_data route_faces new with
  | Raise e _ => RouteRun (Response 500 (ErrorOf e)) []
  | Ok cube =>
      if negb (is_valid cube) then
        RouteRun (Response 400 (ErrorText "Invalid cube configuration")) []
      else
        let run := solve kociemba_solve (solver_init cube) in
        match returned run with
        | inr solution =>
            RouteRun (Response 200 (SolvedBody solution (length solution)))
                     (calls run)
        | inl e => RouteRun (Response 500 (ErrorOf e)) (calls run)
        end
  end.

(** [solve_vision]: the global [current_cube_state] is [None] or a dict;
    the function returns its new value too. *)
Definition solve_vision (kociemba_solve : string → reply)
    (current_cube_state : option cube_json) : route_run * option cube_json :=
  match current_cube_state with
  | None =>
      (RouteRun (Response 400 (ErrorText
         "Not all faces captured. Please capture all 6 faces before solving.")) [],
       current_cube_state)
  | Some state =>
      if negb (Nat.eqb (size state) 6) then
        (RouteRun (Response 400 (ErrorText
           "Not all faces captured. Please capture all 6 faces before solving.")) [],
         current_cube_state)
      else
        match load_faces state route_faces new with
        | Raise e _ => (RouteRun (Response 500 (ErrorOf e)) [], current_cube_state)
        | Ok cube =>
            if negb (is_valid cube) then
              (RouteRun (Response 400 (ErrorText
                 "Invalid cube configuration detected. Please re-scan the faces.")) [],
               current_cube_state)
            else
              let run := solve kociemba_solve (solver_init cube) in
              match returned run with
              | inr solution =>
                  (RouteRun (Response 200 (SolvedBody solution (length solution)))
                            (calls run),
                   None)
              | inl e =>
                  (RouteRun (Response 500 (ErrorOf e)) (calls run),
                   current_cube_state)
              end
        end
  end.

(** The cube whose faces are the six lists of a JSON object that has them
    all, each of nine colours. *)
Definition face_of_list (colors : list color) : face :=
  let at_ k := nth k colors "" in
  Grid (Row (at_ 0) (at_ 1) (at_ 2)) (Row (at_ 3) (at_ 4) (at_ 5))
       (Row (at_ 6) (at_ 7) (at_ 8)).

Definition cube_of_json (cube_data : cube_json) : cube :=
  let f k := face_of_list (default [] (cube_data !! k)) in
  Cube (f "up") (f "down") (f "front") (f "back") (f "right") (f "left").

(** All six faces present, nine colours each. *)
Definition complete (cube_data : cube_json) : Prop :=
  ∀ k, k ∈ route_faces → ∃ colors, cube_data !! k = Some colors ∧ length colors = 9.

(** The JSON object that lists the faces of a cube. *)
Definition json_of_cube (s : cube) : cube_json :=
  list_to_map
    [("up", get_face_flat s Up); ("down", get_face_flat s Down);
     ("front", get_face_flat s Front); ("back", get_face_flat s Back);
     ("right", get_face_flat s Right); ("left", get_face_flat s Left)].

(** * Properties of the move engine *)

(** Case analysis on membership in a literal list. *)
Ltac list_cases H :=
  repeat (apply elem_of_cons in H as [-> | H]);
  try (by apply elem_of_nil in H).

(** Settles a closed decidable proposition by evaluation. *)
Ltac decided :=
  match goal with
  | |- ?P => apply (bool_decide_unpack P); vm_compute; exact I
  end.

(** Names the 54 cells of a cube. *)
Ltac destruct_cube s :=
  destruct s as [[[? ? ?] [? ? ?] [? ? ?]] [[? ? ?] [? ? ?] [? ? ?]]
                 [[? ? ?] [? ? ?] [? ? ?]] [[? ? ?] [? ? ?] [? ? ?]]
                 [[? ? ?] [? ? ?] [? ? ?]] [[? ? ?] [? ? ?] [? ? ?]]].

Lemma alphabet_eq :
  alphabet = ["U"; "U'"; "U2"; "D"; "D'"; "D2"; "L"; "L'"; "L2";
              "R"; "R'"; "R2"; "F"; "F'"; "F2"; "B"; "B'"; "B2"].
Proof. reflexivity. Qed.

Lemma endswith_empty (a : ascii) : endswith "" (String a "") = false.
Proof. reflexivity. Qed.

Lemma endswith_char (s : string) (a : ascii) :
  endswith s (String a "") = true → s = drop_last s ++ String a "".
Proof.
  induction s as [|b r IH]; [done|].
  cbn [endswith]. intros H. apply orb_true_iff in H as [H | H].
  - apply String.eqb_eq in H. by rewrite H.
  - destruct r as [|b' r'] eqn:Er; [done|].
    rewrite <- Er in *. specialize (IH H).
    assert (drop_last (String b r) = String b (drop_last r)) as ->
      by (by rewrite Er).
    change (String b r = String b (drop_last r ++ String a "")).
    by rewrite <- IH.
Qed.

(** A base move always returns. *)
Lemma base_move_returns (X : string) (cw : bool) (s : cube) :
  X ∈ base_moves → ∃ s', _apply_base_move X cw s = Ok s'.
Proof. intros H. unfold base_moves in H. list_cases H; eauto. Qed.

(** Anything else raises before touching the cube. *)
Lemma base_move_raises (X : string) (cw : bool) (s : cube) :
  X ∉ base_moves →
  _apply_base_move X cw s = Raise (ValueError ("Invalid move: " ++ X)) s.
Proof.
  intros H. unfold _apply_base_move.
  repeat match goal with
  | |- context [String.eqb X ?l] =>
      destruct (String.eqb_spec X l) as [-> | _];
      [exfalso; apply H; unfold base_moves; set_solver |]
  end.
  done.
Qed.

Lemma alphabet_plain (X : string) : X ∈ base_moves → X ∈ alphabet.
Proof. intros H. unfold base_moves in H. list_cases H; rewrite alphabet_eq; set_solver. Qed.

Lemma alphabet_prime (X : string) : X ∈ base_moves → X ++ "'" ∈ alphabet.
Proof. intros H. unfold base_moves in H. list_cases H; rewrite alphabet_eq; set_solver. Qed.

Lemma alphabet_double (X : string) : X ∈ base_moves → X ++ "2" ∈ alphabet.
Proof. intros H. unfold base_moves in H. list_cases H; rewrite alphabet_eq; set_solver. Qed.

(** A symbol of the alphabet always returns. *)
Lemma move_returns (m : string) (s : cube) :
  m ∈ alphabet → ∃ s', apply_move m s = Ok s'.
Proof. intros H. rewrite alphabet_eq in H. list_cases H; eauto. Qed.

(** C8.  A symbol outside the 18-symbol alphabet makes [apply_move] raise
    [ValueError] (the source's invalid-move error) with the cube exactly as
    it was before the call; a symbol of the alphabet never raises. *)
Theorem apply_move_invalid_iff (m : string) (s : cube) :
  (m ∉ alphabet →
     ∃ msg, apply_move m s = Raise (ValueError msg) s) ∧
  (m ∈ alphabet → ∃ s', apply_move m s = Ok s').
Proof.
  split; [|apply move_returns].
  intros Hm. unfold apply_move.
  destruct (endswith m "'") eqn:Hq; [|destruct (endswith m "2") eqn:Hd].
  - apply endswith_char in Hq. eexists. apply base_move_raises.
    intros Hb. apply Hm. rewrite Hq. by apply alphabet_prime.
  - apply endswith_char in Hd. eexists. rewrite base_move_raises; [done|].
    intros Hb. apply Hm. rewrite Hd. by apply alphabet_double.
  - eexists. apply base_move_raises.
    intros Hb. apply Hm. by apply alphabet_plain.
Qed.

Lemma apply_move_invalid_iff_witness :
  (∃ msg, apply_move "X" new = Raise (ValueError msg) new) ∧
  (∃ s', apply_move "U2" new = Ok s').
Proof.
  split.
  - apply (proj1 (apply_move_invalid_iff "X" new)). decided.
  - apply (proj2 (apply_move_invalid_iff "U2" new)). decided.
Defined.

(** C3.  For a base move [X], the symbol [X2] does exactly what applying
    [X] twice does: the double move is the composition of two clockwise
    quarter turns. *)
Theorem double_move_is_two_quarter_turns (X : string) (s : cube) :
  X ∈ base_moves →
  apply_move (X ++ "2") s = and_then (apply_move X s) (apply_move X).
Proof. intros H. unfold base_moves in H. list_cases H; reflexivity. Qed.

Lemma double_move_is_two_quarter_turns_witness :
  apply_move ("B" ++ "2") new = and_then (apply_move "B" new) (apply_move "B").
Proof. apply (double_move_is_two_quarter_turns "B" new). decided. Defined.

(** C9.  Every move of the alphabet returns and leaves the centre cell
    [face[1][1]] of each of the six faces as it was. *)
Theorem moves_fix_centers (m : string) (s : cube) (n : face_name) :
  m ∈ alphabet →
  ∃ s', apply_move m s = Ok s' ∧ center s' n = center s n.
Proof.
  intros H. rewrite alphabet_eq in H.
  list_cases H; (eexists; split; [reflexivity|]); by destruct n.
Qed.

Lemma moves_fix_centers_witness :
  ∃ s', apply_move "F'" new = Ok s' ∧ center s' Right = center new Right.
Proof. apply (moves_fix_centers "F'" new Right). decided. Defined.

(** The quarter-turn laws that do hold.  For the five faces other than the
    back face the counter-clockwise turn undoes the clockwise one, in both
    orders, and four clockwise turns are the identity. *)
Lemma inverse_law_sound_bases (X : string) (s : cube) :
  X ∈ sound_bases →
  apply_moves [X; X ++ "'"] s = Ok s ∧ apply_moves [X ++ "'"; X] s = Ok s.
Proof.
  intros H. unfold sound_bases in H. destruct_cube s.
  list_cases H; split; reflexivity.
Qed.

Lemma four_turns_sound_bases (X : string) (s : cube) :
  X ∈ sound_bases → apply_moves [X; X; X; X] s = Ok s.
Proof.
  intros H. unfold sound_bases in H. destruct_cube s.
  list_cases H; reflexivity.
Qed.

(** Sequences of moves. *)
Lemma foldl_raise (e : exn) (s : cube) (ms : list string) :
  foldl (λ r m, and_then r (apply_move m)) (Raise e s) ms = Raise e s.
Proof. induction ms as [|m ms IH]; [done|]. cbn. apply IH. Qed.

Lemma apply_moves_cons (m : string) (ms : list string) (s : cube) :
  apply_moves (m :: ms) s = and_then (apply_move m s) (apply_moves ms).
Proof.
  unfold apply_moves. cbn [foldl and_then].
  destruct (apply_move m s) as [s1 | e s1]; [done|]. apply foldl_raise.
Qed.

(** A symbol followed by its inverse symbol is the identity, for the 15
    symbols that do not turn the back face. *)
Lemma inverse_move_sound (m : string) (s : cube) :
  m ∈ sound_alphabet → apply_moves [m; inverse_move m] s = Ok s.
Proof.
  intros H. change sound_alphabet with
    ["U"; "U'"; "U2"; "D"; "D'"; "D2"; "L"; "L'"; "L2";
     "R"; "R'"; "R2"; "F"; "F'"; "F2"] in H.
  destruct_cube s. list_cases H; reflexivity.
Qed.

Lemma apply_moves_nil (s : cube) : apply_moves [] s = Ok s.
Proof. reflexivity. Qed.

Lemma apply_moves_app (ms1 ms2 : list string) (s : cube) :
  apply_moves (ms1 ++ ms2) s = and_then (apply_moves ms1 s) (apply_moves ms2).
Proof.
  revert s. induction ms1 as [|m ms1 IH]; intros s; [done|].
  rewrite <- app_comm_cons, !apply_moves_cons.
  destruct (apply_move m s) as [s1 | e s1]; [apply IH | done].
Qed.

(** A sequence of such symbols followed by its reversed-and-inverted
    sequence is the identity, whatever its length. *)
Lemma inverse_sequence_sound (ms : list string) (s : cube) :
  Forall (λ m, m ∈ sound_alphabet) ms →
  apply_moves (ms ++ inverse_sequence ms) s = Ok s.
Proof.
  intros H. revert s. induction H as [|m ms Hm _ IH]; intros s; [done|].
  unfold inverse_sequence. rewrite reverse_cons, fmap_app. cbn [fmap list_fmap].
  rewrite <- app_comm_cons, app_assoc, apply_moves_cons.
  pose proof (inverse_move_sound m s Hm) as Hinv.
  rewrite apply_moves_cons in Hinv.
  destruct (apply_move m s) as [s1 | e s1]; [|done].
  cbn [and_then] in *. rewrite apply_moves_app.
  fold (inverse_sequence ms). rewrite IH. cbn [and_then].
  rewrite apply_moves_cons in Hinv. rewrite apply_moves_cons.
  destruct (apply_move (inverse_move m) s1) as [s2 | e s2]; [|done].
  cbn [and_then] in *. by rewrite apply_moves_nil in *.
Qed.

(** The counter-clockwise back turn has order four as well. *)
Lemma back_prime_four_turns (s : cube) :
  apply_moves ["B'"; "B'"; "B'"; "B'"] s = Ok s.
Proof. destruct_cube s. reflexivity. Qed.

(** [B] followed by [B'] reverses the left column of the left face and
    restores everything else. *)
Lemma back_then_back_prime (s : cube) :
  apply_moves ["B"; "B'"] s = Ok (flip_column Left I0 s).
Proof. destruct_cube s. reflexivity. Qed.

(** Four [B] turns reverse each of the four strips around the back face. *)
Lemma back_four_turns (s : cube) :
  apply_moves ["B"; "B"; "B"; "B"] s =
  Ok (flip_column Left I0 (flip_column Right I2 (flip_row Down I2 (flip_row Up I0 s)))).
Proof. destruct_cube s. reflexivity. Qed.

(** C1, evaluated on the code.  From the cube reached by [U], the move [B]
    followed by [B'] does not restore the cube: the left face's first
    column reads G,G,R from top to bottom where it read R,G,G. *)
Theorem back_inverse_law_fails :
  apply_moves ["B"; "B'"] after_U ≠ Ok after_U ∧
  map (λ i, cell after_U Left i I0) range3 = ["R"; "G"; "G"] ∧
  map (λ i, cell (state_of (apply_moves ["B"; "B'"] after_U)) Left i I0) range3
    = ["G"; "G"; "R"].
Proof. split; [|split]; [discriminate | reflexivity | reflexivity]. Qed.

(** C2, evaluated on the code.  From the cube reached by [U], four [B]
    moves do not restore the cube: the left face's first column reads
    G,G,R from top to bottom where it read R,G,G. *)
Theorem back_four_turns_fails :
  apply_moves ["B"; "B"; "B"; "B"] after_U ≠ Ok after_U ∧
  map (λ i, cell after_U Left i I0) range3 = ["R"; "G"; "G"] ∧
  map (λ i, cell (state_of (apply_moves ["B"; "B"; "B"; "B"] after_U)) Left i I0) range3
    = ["G"; "G"; "R"].
Proof. split; [|split]; [discriminate | reflexivity | reflexivity]. Qed.

(** * Properties of the validity check *)

Lemma get0_insert (m : gmap color nat) (x c : color) (v : nat) :
  get0 (<[x := v]> m) c = if bool_decide (x = c) then v else get0 m c.
Proof.
  unfold get0. rewrite lookup_insert.
  case_decide; case_bool_decide; done.
Qed.

Lemma get0_foldl (l : list color) (m : gmap color nat) (c : color) :
  get0 (foldl (λ color_count color,
                 <[color := get0 color_count color + 1]> color_count) m l) c
  = get0 m c + occ c l.
Proof.
  revert m. induction l as [|x l IH]; intros m; cbn [foldl].
  - unfold occ. cbn. lia.
  - rewrite IH, get0_insert. unfold occ. cbn [sum_list_with].
    case_bool_decide; subst; lia.
Qed.

(** The dictionary built by the counting loop holds the number of
    occurrences of each colour. *)
Lemma get0_count_colors (l : list color) (c : color) :
  get0 (count_colors l) c = occ c l.
Proof. unfold count_colors. by rewrite get0_foldl. Qed.

(** [is_valid] in closed form: each of the six codes occurs nine times and
    the six centres are six different values. *)
Lemma is_valid_spec (s : cube) :
  is_valid s =
  forallb (λ c, Nat.eqb (occ c (all_cells s)) 9) six_colors
  && Nat.eqb (size (list_to_set (centers s) : gset color)) 6.
Proof.
  unfold is_valid, six_colors. cbn [existsb forallb].
  rewrite !get0_count_colors. fold (centers s). unfold _validate_pieces.
  repeat (destruct (Nat.eqb (occ _ _) 9); cbn [negb orb andb]; [|done]).
  by destruct (Nat.eqb (size _) 6).
Qed.

(** Two lists with the same weighted sum for every weight are
    rearrangements of each other. *)
Lemma count_occ_sum (l : list color) (x : color) :
  count_occ String.string_dec l x
  = sum_list_with (λ y, if String.string_dec y x then 1 else 0) l.
Proof.
  induction l as [|y l IH]; [done|].
  cbn [count_occ sum_list_with]. destruct (String.string_dec y x); lia.
Qed.

Lemma sums_Permutation (l1 l2 : list color) :
  (∀ f, sum_list_with f l1 = sum_list_with f l2) → l1 ≡ₚ l2.
Proof.
  intros H. apply (Permutation_count_occ String.string_dec). intros x.
  by rewrite !count_occ_sum, H.
Qed.

Lemma move_keeps_sums (f : color → nat) (m : string) (s : cube) :
  m ∈ alphabet →
  sum_list_with f (all_cells (state_of (apply_move m s)))
  = sum_list_with f (all_cells s).
Proof.
  intros H. rewrite alphabet_eq in H. destruct_cube s.
  list_cases H; cbn; lia.
Qed.

(** A move of the alphabet rearranges the 54 cells. *)
Lemma move_permutes_cells (m : string) (s : cube) :
  m ∈ alphabet → all_cells (state_of (apply_move m s)) ≡ₚ all_cells s.
Proof. intros H. apply sums_Permutation. intros f. by apply move_keeps_sums. Qed.

Lemma move_keeps_centers (m : string) (s : cube) :
  m ∈ alphabet → centers (state_of (apply_move m s)) = centers s.
Proof. intros H. rewrite alphabet_eq in H. list_cases H; reflexivity. Qed.

Lemma move_keeps_validity (m : string) (s : cube) :
  m ∈ alphabet → is_valid (state_of (apply_move m s)) = is_valid s.
Proof.
  intros H. rewrite !is_valid_spec, (move_keeps_centers m s H).
  f_equal. unfold six_colors, occ. cbn [forallb].
  by rewrite !(move_keeps_sums _ m s H).
Qed.

Lemma moves_keep_validity (ms : list string) (s : cube) :
  Forall (λ m, m ∈ alphabet) ms →
  ∃ s', apply_moves ms s = Ok s' ∧ is_valid s' = is_valid s.
Proof.
  intros H. revert s. induction H as [|m ms Hm _ IH]; intros s.
  - by exists s.
  - rewrite apply_moves_cons.
    destruct (move_returns m s Hm) as [s1 Hs1].
    pose proof (move_keeps_validity m s Hm) as Hv.
    rewrite Hs1 in *. cbn [and_then state_of] in *.
    destruct (IH s1) as (s' & Hs' & Hv'). exists s'. split; [done|congruence].
Qed.

(** C7.  The cube built by the constructor is solved and valid: each of the
    six colour codes fills one face, so it occurs nine times, and the six
    centres are six different colours. *)
Theorem new_is_solved_and_valid :
  is_solved new = true ∧ is_valid new = true ∧
  Forall (λ c, occ c (all_cells new) = 9) six_colors ∧
  NoDup (centers new) ∧
  Forall (λ n, face_cells (faces new n) = replicate 9 (center new n)) face_keys.
Proof.
  split; [reflexivity|]. split; [reflexivity|].
  split; [|split]; decided.
Qed.

(** A move of the alphabet sends the cell at each position to a fixed
    position: the cells after the move are the cells before it, read at
    [move_positions], and those positions are 0..53 in another order. *)
Lemma move_positions_all (m : string) :
  m ∈ alphabet → move_positions m ≡ₚ seq 0 54.
Proof. intros H. rewrite alphabet_eq in H. list_cases H; decided. Qed.

Lemma move_is_positional (m : string) (s : cube) :
  m ∈ alphabet →
  all_cells (state_of (apply_move m s))
  = (λ i, nth i (all_cells s) "") <$> move_positions m.
Proof.
  intros H. rewrite alphabet_eq in H. destruct_cube s.
  list_cases H; reflexivity.
Qed.

(** C10.  A move of the alphabet returns; it is a permutation of the 54
    cell positions, the same for every cube, so it rearranges the cells; it
    keeps the six centres; and so it keeps the value of [is_valid].  Every
    cube reached from the constructor's cube by moves of the alphabet is
    valid. *)
Theorem moves_preserve_validity :
  (∀ m : string, m ∈ alphabet →
     ∃ positions : list nat, positions ≡ₚ seq 0 54 ∧
       ∀ s : cube, ∃ s', apply_move m s = Ok s' ∧
         all_cells s' = (λ i, nth i (all_cells s) "") <$> positions ∧
         all_cells s' ≡ₚ all_cells s ∧
         centers s' = centers s ∧
         is_valid s' = is_valid s) ∧
  (∀ ms : list string, Forall (λ m, m ∈ alphabet) ms →
     ∃ s', apply_moves ms new = Ok s' ∧ is_valid s' = true).
Proof.
  split.
  - intros m Hm. exists (move_positions m).
    split; [by apply move_positions_all|]. intros s.
    destruct (move_returns m s Hm) as [s' Hs'].
    pose proof (move_is_positional m s Hm) as Hq.
    pose proof (move_permutes_cells m s Hm) as Hp.
    pose proof (move_keeps_centers m s Hm) as Hc.
    pose proof (move_keeps_validity m s Hm) as Hv.
    rewrite Hs' in *. by exists s'.
  - intros ms Hms. destruct (moves_keep_validity ms new Hms) as (s' & Hs' & Hv).
    exists s'. split; [done|]. rewrite Hv. reflexivity.
Qed.

Lemma moves_preserve_validity_witness :
  (∃ positions : list nat, positions ≡ₚ seq 0 54 ∧
     ∀ s : cube, ∃ s', apply_move "B" s = Ok s' ∧
       all_cells s' = (λ i, nth i (all_cells s) "") <$> positions ∧
       all_cells s' ≡ₚ all_cells s ∧
       centers s' = centers s ∧
       is_valid s' = is_valid s) ∧
  (∃ s', apply_moves ["R"; "U"; "R'"; "U'"] new = Ok s' ∧ is_valid s' = true).
Proof.
  split.
  - apply (proj1 moves_preserve_validity "B"). decided.
  - apply (proj2 moves_preserve_validity ["R"; "U"; "R'"; "U'"]). decided.
Defined.

(** * Properties of the encoding and of the solver adapter *)

(** Summing, over a duplicate-free list of colours, the indicator of one
    colour. *)
Lemma indicator_sum (cs : list color) (x : color) :
  NoDup cs →
  sum_list_with (λ c, if bool_decide (x = c) then 1 else 0) cs
  = if bool_decide (x ∈ cs) then 1 else 0.
Proof.
  induction 1 as [|c cs Hc _ IH]; [done|].
  cbn [sum_list_with]. rewrite IH.
  destruct (decide (x = c)) as [-> | Hne].
  - rewrite bool_decide_eq_true_2 by done.
    rewrite (bool_decide_eq_false_2 (c ∈ cs)) by done.
    rewrite (bool_decide_eq_true_2 (c ∈ c :: cs)) by apply list_elem_of_here.
    done.
  - rewrite bool_decide_eq_false_2 by done.
    destruct (decide (x ∈ cs)) as [Hin | Hnin].
    + rewrite (bool_decide_eq_true_2 (x ∈ cs)) by done.
      rewrite (bool_decide_eq_true_2 (x ∈ c :: cs))
        by (by apply list_elem_of_further).
      done.
    + rewrite (bool_decide_eq_false_2 (x ∈ cs)) by done.
      rewrite (bool_decide_eq_false_2 (x ∈ c :: cs)); [done|].
      intros [? | ?]%elem_of_cons; done.
Qed.

Lemma occ_cons (c x : color) (l : list color) :
  occ c (x :: l) = (if bool_decide (x = c) then 1 else 0) + occ c l.
Proof. reflexivity. Qed.

Lemma occ_total_cons (cs : list color) (x : color) (l : list color) :
  sum_list_with (λ c, occ c (x :: l)) cs
  = sum_list_with (λ c, if bool_decide (x = c) then 1 else 0) cs
    + sum_list_with (λ c, occ c l) cs.
Proof.
  induction cs as [|c cs IH]; [done|].
  cbn [sum_list_with]. rewrite IH, occ_cons. lia.
Qed.

(** The occurrences of the colours of [cs] add up to at most the length
    of the list ... *)
Lemma occ_total_le (cs l : list color) :
  NoDup cs → (sum_list_with (λ c, occ c l) cs ≤ length l)%nat.
Proof.
  intros Hcs. induction l as [|x l IH].
  - induction cs as [|c cs IHc]; [done|].
    apply NoDup_cons in Hcs as [_ Hcs]. cbn [sum_list_with]. by apply IHc.
  - rewrite occ_total_cons, indicator_sum by done.
    cbn [length]. case_bool_decide; lia.
Qed.

(** ... and to exactly the length only if every element is in [cs]. *)
Lemma occ_total_eq (cs l : list color) :
  NoDup cs → sum_list_with (λ c, occ c l) cs = length l →
  ∀ x, x ∈ l → x ∈ cs.
Proof.
  intros Hcs. induction l as [|y l IH]; intros Hsum x Hx.
  - by apply elem_of_nil in Hx.
  - rewrite occ_total_cons, indicator_sum in Hsum by done.
    pose proof (occ_total_le cs l Hcs) as Hle. cbn [length] in Hsum.
    case_bool_decide as Hy; [|lia].
    apply elem_of_cons in Hx as [-> | Hx]; [done|].
    apply IH; [lia | done].
Qed.

(** A list with as many distinct values as elements has no duplicate. *)
Lemma size_list_to_set_le (l : list color) :
  (size (list_to_set l : gset color) ≤ length l)%nat.
Proof.
  induction l as [|x l IH]; [done|].
  rewrite list_to_set_cons, size_union_alt, size_singleton. cbn [length].
  assert (size (list_to_set l ∖ {[x]} : gset color)
          ≤ size (list_to_set l : gset color))%nat
    by (apply subseteq_size, subseteq_difference_l; done).
  lia.
Qed.

Lemma size_list_to_set_NoDup (l : list color) :
  size (list_to_set l : gset color) = length l → NoDup l.
Proof.
  induction l as [|x l IH]; [constructor|].
  rewrite list_to_set_cons. cbn [length]. intros Hsz.
  pose proof (size_list_to_set_le l) as Hle.
  destruct (decide (x ∈ l)) as [Hin | Hnin].
  - assert (({[x]} ∪ list_to_set l : gset color) = list_to_set l) as Heq
      by (by apply subseteq_union_1_L, singleton_subseteq_l,
                   elem_of_list_to_set).
    rewrite Heq in Hsz. lia.
  - rewrite size_union, size_singleton in Hsz
      by (by apply disjoint_singleton_l; rewrite elem_of_list_to_set).
    apply NoDup_cons. split; [done|]. apply IH. lia.
Qed.

(** What [is_valid] establishes. *)
Lemma is_valid_counts (s : cube) :
  is_valid s = true →
  Forall (λ c, occ c (all_cells s) = 9) six_colors ∧ NoDup (centers s).
Proof.
  rewrite is_valid_spec. intros [Hc Hz]%andb_true_iff. split.
  - unfold six_colors in *. cbn [forallb] in Hc.
    repeat (apply andb_true_iff in Hc as [?%Nat.eqb_eq Hc]).
    repeat constructor; done.
  - apply size_list_to_set_NoDup. by apply Nat.eqb_eq in Hz.
Qed.

Lemma all_cells_length (s : cube) : length (all_cells s) = 54.
Proof. reflexivity. Qed.

Lemma centers_are_cells (s : cube) (x : color) :
  x ∈ centers s → x ∈ all_cells s.
Proof.
  unfold centers, all_cells. intros (n & -> & Hn)%list_elem_of_fmap.
  apply list_elem_of_bind. exists n. split; [|done].
  unfold center, cell, get_row, face_cells, face_rows, row_cells.
  cbn [map concat app face_row row_get].
  do 4 apply list_elem_of_further. apply list_elem_of_here.
Qed.

(** On a valid cube every cell holds one of the six colour codes, and the
    six centres are exactly those six codes. *)
Lemma valid_cells_six (s : cube) (x : color) :
  is_valid s = true → x ∈ all_cells s → x ∈ six_colors.
Proof.
  intros [Hocc _]%is_valid_counts. apply occ_total_eq; [decided|].
  rewrite all_cells_length. unfold six_colors in *. cbn [sum_list_with].
  repeat match goal with
  | H : Forall _ (_ :: _) |- _ => apply Forall_cons in H as [-> H]
  end.
  reflexivity.
Qed.

Lemma valid_centers_six (s : cube) :
  is_valid s = true → centers s ≡ₚ six_colors.
Proof.
  intros Hv. apply submseteq_length_Permutation; [|done].
  apply NoDup_submseteq; [by apply is_valid_counts|].
  intros x Hx. by apply (valid_cells_six s), centers_are_cells.
Qed.

Lemma valid_cells_centers (s : cube) (x : color) :
  is_valid s = true → x ∈ all_cells s → x ∈ centers s.
Proof.
  intros Hv Hx. rewrite (valid_centers_six s Hv). by apply (valid_cells_six s).
Qed.

(** The encoding visits the same 54 cells as the validity check. *)
Lemma kociemba_cells_all_cells (s : cube) : kociemba_cells s ≡ₚ all_cells s.
Proof.
  apply sums_Permutation. intros f. destruct_cube s. cbn. lia.
Qed.

(** Every centre colour is a key of [color_map], bound to a face letter. *)
Lemma color_map_centers (s : cube) (x : color) :
  x ∈ centers s →
  ∃ letter, kociemba_color_map s !! x = Some letter ∧ letter ∈ face_letters.
Proof.
  intros H. unfold centers, face_keys in H. cbn [map] in H.
  unfold kociemba_color_map, face_order, face_letters.
  cbn [zip zip_with foldl fst snd].
  list_cases H;
    repeat (rewrite lookup_insert; case_decide;
            [eexists; split; [reflexivity | decided] |]);
    congruence.
Qed.

Lemma string_length_app (a b : string) :
  String.length (a ++ b) = String.length a + String.length b.
Proof. induction a as [|x a IH]; [done|]. cbn. by rewrite <- IH. Qed.

Lemma face_letter_length (letter : string) :
  letter ∈ face_letters → String.length letter = 1.
Proof. intros H. unfold face_letters in H. list_cases H; reflexivity. Qed.

(** The translation loop succeeds when every cell is a key of the map, and
    it appends one character per cell. *)
Lemma translate_cells_ok (color_map : gmap color string) (cells : list color) :
  (∀ x, x ∈ cells →
     ∃ letter, color_map !! x = Some letter ∧ letter ∈ face_letters) →
  ∀ cube_str, ∃ out,
    translate_cells color_map cells cube_str = inr out ∧
    String.length out = String.length cube_str + length cells.
Proof.
  induction cells as [|x cells IH]; intros Hkeys cube_str.
  - exists cube_str. split; [done|]. cbn. lia.
  - destruct (Hkeys x) as (letter & Hl & Hlen); [apply list_elem_of_here|].
    cbn [translate_cells]. rewrite Hl.
    destruct (IH (λ y Hy, Hkeys y (list_elem_of_further _ _ _ Hy))
                 (cube_str ++ letter)) as (out & Hout & Hlen').
    exists out. split; [done|].
    rewrite Hlen', string_length_app, (face_letter_length letter Hlen).
    cbn [length]. lia.
Qed.

(** The encoding of a valid cube returns a string of 54 characters. *)
Lemma valid_encoding (s : cube) :
  is_valid s = true →
  ∃ cube_str, _to_kociemba_string s = inr cube_str ∧
              String.length cube_str = 54.
Proof.
  intros Hv.
  destruct (translate_cells_ok (kociemba_color_map s) (kociemba_cells s))
    with (cube_str := "") as (out & Hout & Hlen).
  - intros x Hx. apply color_map_centers, valid_cells_centers; [done|].
    by rewrite <- (kociemba_cells_all_cells s).
  - exists out. split; [done|]. rewrite Hlen. reflexivity.
Qed.

(** C6.  On a cube that [is_valid] accepts, each of the 54 cells holds the
    colour of one of the six centres, so the encoding returns a string, of
    54 characters, and raises nothing; hence an encoding that raises was
    run on a cube that [is_valid] rejects. *)
Theorem valid_cube_encodes :
  (∀ s : cube, is_valid s = true →
     (∀ x, x ∈ all_cells s → x ∈ centers s) ∧
     ∃ cube_str, _to_kociemba_string s = inr cube_str ∧
                 String.length cube_str = 54) ∧
  (∀ (s : cube) (e : exn), _to_kociemba_string s = inl e → is_valid s = false).
Proof.
  split.
  - intros s Hv. split; [intros x; by apply valid_cells_centers|].
    by apply valid_encoding.
  - intros s e He. destruct (is_valid s) eqn:Hv; [|done].
    destruct (valid_encoding s Hv) as (out & Hout & _). congruence.
Qed.

Lemma valid_cube_encodes_witness :
  ((∀ x, x ∈ all_cells after_U → x ∈ centers after_U) ∧
   ∃ cube_str, _to_kociemba_string after_U = inr cube_str ∧
               String.length cube_str = 54) ∧
  is_valid stray_cube = false.
Proof.
  split.
  - apply (proj1 valid_cube_encodes after_U). reflexivity.
  - apply (proj2 valid_cube_encodes stray_cube (KeyError "X")). reflexivity.
Defined.

(** C4.  On a solved cube [solve] returns the empty list and makes no call
    to [kociemba.solve], whatever that function would have done. *)
Theorem solve_solved_no_call (kociemba_solve : string → reply) (c : cube) :
  is_solved c = true →
  solve kociemba_solve (solver_init c)
  = {| calls := []; solution_after := []; returned := inr [] |}.
Proof. intros H. unfold solve, solver_init, copy. cbn [solver_cube]. by rewrite H. Qed.

Lemma solve_solved_no_call_witness :
  solve (λ _, Raises "unreachable") (solver_init new)
  = {| calls := []; solution_after := []; returned := inr [] |}.
Proof. apply (solve_solved_no_call (λ _, Raises "unreachable") new). reflexivity. Defined.

(** C5.  On a valid cube that is not solved the encoding succeeds, the one
    call to [kociemba.solve] receives the encoded string, and if that call
    raises then [solve] returns the 15-token fallback list, the same for
    every cube, and raises nothing. *)
Theorem solve_fallback_on_error (kociemba_solve : string → reply) (c : cube) :
  is_solved c = false → is_valid c = true →
  ∃ cube_str, _to_kociemba_string c = inr cube_str ∧
    ∀ error, kociemba_solve cube_str = Raises error →
      solve kociemba_solve (solver_init c)
      = {| calls := [cube_str]; solution_after := fallback;
           returned := inr fallback |}.
Proof.
  intros Hs Hv.
  destruct (valid_encoding c Hv) as (cube_str & Henc & _).
  exists cube_str. split; [done|]. intros error Hk.
  unfold solve, solver_init, copy. cbn [solver_cube].
  rewrite Hs, Hv. cbn [negb]. rewrite Henc, Hk. reflexivity.
Qed.

Lemma solve_fallback_on_error_witness :
  ∃ cube_str, _to_kociemba_string after_U = inr cube_str ∧
    ∀ error, (λ _, Raises "no solution") cube_str = Raises error →
      solve (λ _, Raises "no solution") (solver_init after_U)
      = {| calls := [cube_str]; solution_after := fallback;
           returned := inr fallback |}.
Proof.
  apply (solve_fallback_on_error (λ _, Raises "no solution") after_U);
    reflexivity.
Defined.

(** * Further properties of [RubiksCube] *)

(** A call of [set_face] that passes both checks. *)
Lemma set_face_ok (k : string) (n : face_name) (colors : list color) (s : cube) :
  face_of_key k = Some n → length colors = 9 →
  ∃ s', set_face k colors s = Ok s' ∧
        get_face_flat_key k s' = inr colors ∧
        ∀ n', n' ≠ n → faces s' n' = faces s n'.
Proof.
  intros Hk Hlen. unfold set_face, get_face_flat_key. rewrite Hk.
  do 10 (destruct colors as [|? colors]; try discriminate Hlen).
  eexists. split; [reflexivity|]. split.
  - by destruct n.
  - intros n' Hn'. by destruct n, n'.
Qed.

(** X1.  [set_face] with one of the six keys and nine colours returns;
    [get_face_flat] of that key then reads the nine colours back in the
    same order, and the five other faces are untouched. *)
Theorem set_face_get_face_flat
    (k : string) (n : face_name) (colors : list color) (s : cube) :
  face_of_key k = Some n → length colors = 9 →
  ∃ s', set_face k colors s = Ok s' ∧
        get_face_flat_key k s' = inr colors ∧
        ∀ n', n' ≠ n → faces s' n' = faces s n'.
Proof.
  intros Hk Hlen. unfold set_face, get_face_flat_key. rewrite Hk.
  do 10 (destruct colors as [|? colors]; try discriminate Hlen).
  eexists. split; [reflexivity|]. split.
  - by destruct n.
  - intros n' Hn'. by destruct n, n'.
Qed.

Lemma set_face_get_face_flat_witness :
  ∃ s', set_face "left" ["W"; "Y"; "R"; "O"; "B"; "G"; "W"; "Y"; "R"] new = Ok s' ∧
        get_face_flat_key "left" s' = inr ["W"; "Y"; "R"; "O"; "B"; "G"; "W"; "Y"; "R"] ∧
        ∀ n', n' ≠ Left → faces s' n' = faces new n'.
Proof.
  apply (set_face_get_face_flat "left" Left
           ["W"; "Y"; "R"; "O"; "B"; "G"; "W"; "Y"; "R"] new); reflexivity.
Defined.

Lemma face_of_key_known (k : string) :
  is_Some (face_of_key k) ↔ k ∈ face_key_names.
Proof.
  unfold face_of_key, face_key_names. split.
  - repeat match goal with
    | |- context [String.eqb k ?l] =>
        destruct (String.eqb_spec k l) as [-> | _]; [intros _; decided|]
    end.
    by intros [? ?].
  - intros H. list_cases H; by eexists.
Qed.

(** X2.  [set_face] returns exactly when the name is one of the six keys
    and there are nine colours.  Otherwise it raises [ValueError] and the
    cube is as before; an unknown name is reported even when the number of
    colours is wrong too. *)
Theorem set_face_returns_iff (k : string) (colors : list color) (s : cube) :
  ((∃ s', set_face k colors s = Ok s') ↔
     k ∈ face_key_names ∧ length colors = 9) ∧
  (k ∉ face_key_names →
     set_face k colors s = Raise (ValueError ("Invalid face name: " ++ k)) s) ∧
  (k ∈ face_key_names → length colors ≠ 9 →
     set_face k colors s = Raise (ValueError "Face must have exactly 9 colors") s).
Proof.
  assert (k ∉ face_key_names →
     set_face k colors s = Raise (ValueError ("Invalid face name: " ++ k)) s) as Hbad.
  { intros Hk. unfold set_face.
    destruct (face_of_key k) eqn:E; [|done].
    exfalso. apply Hk, face_of_key_known. by eexists. }
  assert (k ∈ face_key_names → length colors ≠ 9 →
     set_face k colors s = Raise (ValueError "Face must have exactly 9 colors") s)
    as Hlen.
  { intros [n Hn]%face_of_key_known Hl. unfold set_face. rewrite Hn.
    do 10 (destruct colors as [|? colors]; try done). }
  split; [|by split]. split.
  - intros [s' Hs']. destruct (decide (k ∈ face_key_names)) as [Hk | Hk].
    + split; [done|]. destruct (decide (length colors = 9)) as [|Hl]; [done|].
      rewrite (Hlen Hk Hl) in Hs'. discriminate.
    + rewrite (Hbad Hk) in Hs'. discriminate.
  - intros [[n Hn]%face_of_key_known Hl].
    destruct (set_face_ok k n colors s Hn Hl) as (s' & Hs' & _).
    by exists s'.
Qed.

Lemma set_face_returns_iff_witness :
  set_face "top" ["W"] new = Raise (ValueError ("Invalid face name: " ++ "top")) new ∧
  set_face "up" ["W"] new = Raise (ValueError "Face must have exactly 9 colors") new.
Proof.
  split.
  - apply (proj1 (proj2 (set_face_returns_iff "top" ["W"] new))). decided.
  - apply (proj2 (proj2 (set_face_returns_iff "up" ["W"] new))); decided.
Defined.

(** [is_solved] in closed form. *)
Lemma is_solved_spec (s : cube) :
  is_solved s = true ↔ ∀ n, get_face_flat s n = replicate 9 (center s n).
Proof.
  destruct_cube s. split.
  - intros H. unfold is_solved, face_keys in H.
    cbn [forallb faces face_rows row_cells face_row row_get
         faces_up faces_down faces_front faces_back faces_right faces_left
         r0 r1 r2 c0 c1 c2] in H.
    repeat match goal with
    | H : _ && _ = true |- _ => apply andb_true_iff in H as [? ?]
    | H : bool_decide (_ = _) = true |- _ => apply bool_decide_eq_true in H
    end.
    subst. intros n. by destruct n.
  - intros H.
    pose proof (H Up) as Hu. pose proof (H Down) as Hd.
    pose proof (H Front) as Hf. pose proof (H Back) as Hb.
    pose proof (H Right) as Hr. pose proof (H Left) as Hl. clear H.
    cbv [get_face_flat center cell get_row range3 map concat app replicate
         faces face_row row_get
         faces_up faces_down faces_front faces_back faces_right faces_left
         r0 r1 r2 c0 c1 c2] in Hu, Hd, Hf, Hb, Hr, Hl.
    simplify_eq.
    unfold is_solved, face_keys.
    cbn [forallb faces face_rows row_cells face_row row_get
         faces_up faces_down faces_front faces_back faces_right faces_left
         r0 r1 r2 c0 c1 c2].
    by rewrite !bool_decide_eq_true_2 by done.
Qed.

(** X3.  [is_solved] is true exactly when [get_face_flat] of every face is
    nine copies of that face's centre. *)
Theorem is_solved_iff_uniform (s : cube) :
  is_solved s = true ↔ ∀ n, get_face_flat s n = replicate 9 (center s n).
Proof. apply is_solved_spec. Qed.

(** The multiset of cells of a valid cube. *)
Lemma count_occ_occ (l : list color) (x : color) :
  count_occ String.string_dec l x = occ x l.
Proof.
  rewrite count_occ_sum. unfold occ. induction l as [|y l IH]; [done|].
  cbn [sum_list_with]. rewrite IH.
  destruct (String.string_dec y x); case_bool_decide; done.
Qed.

(** X4.  [is_valid] is true exactly when the 54 cells are nine W, nine Y,
    nine R, nine O, nine B and nine G in some order and the six centres are
    pairwise different. *)
Theorem is_valid_iff (s : cube) :
  is_valid s = true ↔
  all_cells s ≡ₚ (six_colors ≫= replicate 9) ∧ NoDup (centers s).
Proof.
  split.
  - intros Hv. destruct (is_valid_counts s Hv) as [Hocc Hnd]. split; [|done].
    apply (Permutation_count_occ String.string_dec). intros x.
    rewrite !count_occ_occ.
    destruct (decide (x ∈ six_colors)) as [Hx | Hx].
    + rewrite Forall_forall in Hocc. rewrite (Hocc x Hx).
      unfold six_colors in Hx. list_cases Hx; reflexivity.
    + assert (∀ l : list color, x ∉ l → occ x l = 0) as Hzero.
      { induction l as [|y l IH]; [done|]. intros Hn.
        apply not_elem_of_cons in Hn as [Hne Hn]. rewrite occ_cons, IH by done.
        by rewrite bool_decide_eq_false_2 by done. }
      rewrite !Hzero; [done | | ].
      * intros Hin. apply list_elem_of_bind in Hin as (c & Hin & Hc).
        apply elem_of_replicate in Hin as [-> _]. done.
      * intros Hin. by apply Hx, (valid_cells_six s).
  - intros [Hp Hnd]. rewrite is_valid_spec. apply andb_true_iff. split.
    + unfold occ, six_colors in *. cbn [forallb]. rewrite !Hp.
      reflexivity.
    + apply Nat.eqb_eq. by rewrite size_list_to_set.
Qed.

(** * Further properties of the move engine *)

(** Case analysis on membership of a tuple in a literal list. *)
Ltac tuple_cases H :=
  repeat (apply elem_of_cons in H as [H | H]; [simplify_eq|]);
  try (by apply elem_of_nil in H).

(** X5.  [_rotate_face]: the counter-clockwise rotation undoes the
    clockwise one and conversely, four clockwise rotations restore the
    cube, the centre of the rotated face stays, and no other face is
    touched. *)
Theorem rotate_face_laws (n : face_name) (s : cube) :
  _rotate_face n false (_rotate_face n true s) = s ∧
  _rotate_face n true (_rotate_face n false s) = s ∧
  _rotate_face n true (_rotate_face n true
    (_rotate_face n true (_rotate_face n true s))) = s ∧
  ∀ (clockwise : bool) (n' : face_name),
    center (_rotate_face n clockwise s) n' = center s n' ∧
    (n' = n ∨ faces (_rotate_face n clockwise s) n' = faces s n').
Proof.
  destruct_cube s.
  repeat split; try (by destruct n); destruct clockwise, n, n'; auto.
Qed.

(** X6.  A turn of one face, in any of its three variants, leaves the face
    across the cube exactly as it was, and the turned face keeps its own
    nine stickers (in another arrangement). *)
Theorem move_leaves_opposite_face (X m : string) (t o : face_name) (s : cube) :
  (X, (t, o)) ∈ turned_and_opposite → m ∈ variants X →
  faces (state_of (apply_move m s)) o = faces s o ∧
  face_cells (faces (state_of (apply_move m s)) t) ≡ₚ face_cells (faces s t).
Proof.
  intros HX Hm. unfold turned_and_opposite in HX.
  split.
  - destruct_cube s.
    tuple_cases HX; unfold variants in Hm; list_cases Hm; reflexivity.
  - apply sums_Permutation. intros f. destruct_cube s.
    tuple_cases HX; vm_compute in Hm; list_cases Hm; cbn; lia.
Qed.

Lemma move_leaves_opposite_face_witness :
  faces (state_of (apply_move "B2" after_U)) Front = faces after_U Front ∧
  face_cells (faces (state_of (apply_move "B2" after_U)) Back)
    ≡ₚ face_cells (faces after_U Back).
Proof.
  apply (move_leaves_opposite_face "B" "B2" Back Front after_U); decided.
Defined.

(** X7.  Turns of two opposite faces commute, in all their variants: the
    cube after [m1] then [m2] is the cube after [m2] then [m1]. *)
Theorem opposite_moves_commute
    (X Y m1 m2 : string) (t o : face_name) (s : cube) :
  (X, (t, o)) ∈ turned_and_opposite → (Y, (o, t)) ∈ turned_and_opposite →
  m1 ∈ variants X → m2 ∈ variants Y →
  and_then (apply_move m1 s) (apply_move m2)
  = and_then (apply_move m2 s) (apply_move m1).
Proof.
  intros HX HY H1 H2. unfold turned_and_opposite in HX, HY. destruct_cube s.
  tuple_cases HX; tuple_cases HY;
    unfold variants in H1, H2; list_cases H1; list_cases H2; reflexivity.
Qed.

Lemma opposite_moves_commute_witness :
  and_then (apply_move "F'" after_U) (apply_move "B2")
  = and_then (apply_move "B2" after_U) (apply_move "F'").
Proof.
  apply (opposite_moves_commute "F" "B" "F'" "B2" Front Back after_U); decided.
Defined.

(** X8.  For the five base moves other than the back face: the
    counter-clockwise symbol does what three clockwise turns do, the
    double symbol applied twice restores the cube, and so do a turn
    followed by its counter-turn (in either order) and four turns. *)
Theorem non_back_turn_laws (X : string) (s : cube) :
  X ∈ sound_bases →
  apply_move (X ++ "'") s = apply_moves [X; X; X] s ∧
  apply_moves [X ++ "2"; X ++ "2"] s = Ok s ∧
  apply_moves [X; X ++ "'"] s = Ok s ∧
  apply_moves [X ++ "'"; X] s = Ok s ∧
  apply_moves [X; X; X; X] s = Ok s.
Proof.
  intros H. unfold sound_bases in H. destruct_cube s.
  list_cases H; repeat split; reflexivity.
Qed.

Lemma non_back_turn_laws_witness :
  apply_move ("F" ++ "'") after_U = apply_moves ["F"; "F"; "F"] after_U ∧
  apply_moves ["F" ++ "2"; "F" ++ "2"] after_U = Ok after_U ∧
  apply_moves ["F"; "F" ++ "'"] after_U = Ok after_U ∧
  apply_moves ["F" ++ "'"; "F"] after_U = Ok after_U ∧
  apply_moves ["F"; "F"; "F"; "F"] after_U = Ok after_U.
Proof. apply (non_back_turn_laws "F" after_U). decided. Defined.

(** X9.  A sequence of any length over the 15 symbols that do not turn the
    back face, followed by the same sequence reversed with each symbol
    inverted, restores the cube. *)
Theorem non_back_sequence_undone (ms : list string) (s : cube) :
  Forall (λ m, m ∈ sound_alphabet) ms →
  apply_moves (ms ++ inverse_sequence ms) s = Ok s.
Proof. apply inverse_sequence_sound. Qed.

Lemma non_back_sequence_undone_witness :
  apply_moves (["R"; "U2"; "F'"; "L"] ++ inverse_sequence ["R"; "U2"; "F'"; "L"])
              after_U = Ok after_U.
Proof.
  apply (non_back_sequence_undone ["R"; "U2"; "F'"; "L"] after_U). decided.
Defined.

(** X10.  The back face: four counter-clockwise turns restore the cube,
    eight clockwise turns restore the cube, and the double symbol is two
    clockwise turns, so it restores the cube after four applications. *)
Theorem back_turn_orders (s : cube) :
  apply_moves ["B'"; "B'"; "B'"; "B'"] s = Ok s ∧
  apply_moves ["B"; "B"; "B"; "B"; "B"; "B"; "B"; "B"] s = Ok s ∧
  apply_moves ["B2"; "B2"; "B2"; "B2"] s = Ok s.
Proof. destruct_cube s. repeat split; reflexivity. Qed.

(** * Validity under face assignment and under moves *)

Lemma all_cells_blocks (s : cube) :
  all_cells s
  = (face_cells (faces s Up) ++ face_cells (faces s Down)
     ++ face_cells (faces s Front) ++ face_cells (faces s Back)
     ++ face_cells (faces s Right) ++ face_cells (faces s Left))%list.
Proof. destruct_cube s. reflexivity. Qed.

Lemma occ_app (c : color) (l1 l2 : list color) :
  occ c (l1 ++ l2)%list = occ c l1 + occ c l2.
Proof. apply sum_list_with_app. Qed.

Lemma occ_le_length (c : color) (l : list color) : (occ c l ≤ length l)%nat.
Proof.
  induction l as [|x l IH]; [done|].
  rewrite occ_cons. cbn [length]. case_bool_decide; lia.
Qed.

Lemma occ_full (c : color) (l : list color) :
  occ c l = length l → l = replicate (length l) c.
Proof.
  induction l as [|x l IH]; [done|].
  rewrite occ_cons. cbn [length replicate].
  pose proof (occ_le_length c l). case_bool_decide; [|lia].
  intros H'. subst x. f_equal. apply IH. lia.
Qed.

Lemma face_cells_length (f : face) : length (face_cells f) = 9.
Proof. reflexivity. Qed.

Lemma face_cells_uniform (f : face) (c : color) :
  face_cells f = replicate 9 c → f = uniform_face c.
Proof.
  destruct f as [[? ? ?] [? ? ?] [? ? ?]]. intros H.
  cbv [face_cells face_rows row_cells map concat app replicate
       r0 r1 r2 c0 c1 c2] in H.
  by simplify_eq.
Qed.

Lemma set_faces_same (n : face_name) (s : cube) : set_faces n (faces s n) s = s.
Proof. by destruct s, n. Qed.

(** X11.  On a valid cube, [set_face] with nine copies of one colour gives
    an invalid cube, unless that face already was nine copies of that
    colour and the call changed nothing. *)
Theorem painting_a_face_invalidates
    (k : string) (c : color) (s s' : cube) :
  is_valid s = true →
  set_face k (replicate 9 c) s = Ok s' → s' ≠ s →
  is_valid s' = false.
Proof.
  intros Hv Hset Hne. destruct (is_valid s') eqn:Hv'; [exfalso|done].
  unfold set_face in Hset. destruct (face_of_key k) as [n|]; [|done].
  cbn [replicate] in Hset. injection Hset as <-.
  change (Grid (Row c c c) (Row c c c) (Row c c c)) with (uniform_face c) in *.
  assert (c ∈ six_colors) as Hc.
  { apply (valid_cells_six _ _ Hv'), centers_are_cells.
    unfold centers. apply list_elem_of_fmap. exists n.
    split; [by destruct n | destruct n; decided]. }
  destruct (is_valid_counts _ Hv) as [Ho _].
  destruct (is_valid_counts _ Hv') as [Ho' _].
  rewrite Forall_forall in Ho, Ho'.
  specialize (Ho c Hc). specialize (Ho' c Hc).
  rewrite all_cells_blocks, !occ_app in Ho, Ho'.
  assert (occ c (face_cells (uniform_face c)) = 9) as Hu
    by (unfold occ; cbn; by rewrite !bool_decide_eq_true_2 by done).
  assert (occ c (face_cells (faces s n)) = 9) as Hfull.
  { pose proof (occ_le_length c (face_cells (faces s n))) as Hle.
    rewrite face_cells_length in Hle.
    destruct n; cbn [faces set_faces faces_up faces_down faces_front
                     faces_back faces_right faces_left] in *;
      rewrite Hu in Ho'; lia. }
  apply Hne. rewrite <- (set_faces_same n s) at 2. f_equal. symmetry.
  apply face_cells_uniform.
  rewrite <- (face_cells_length (faces s n)) in Hfull.
  apply occ_full in Hfull. by rewrite face_cells_length in Hfull.
Qed.

Lemma painting_a_face_invalidates_witness :
  is_valid (state_of (set_face "up" (replicate 9 "R") after_U)) = false.
Proof.
  apply (painting_a_face_invalidates "up" "R" after_U
           (state_of (set_face "up" (replicate 9 "R") after_U)));
    [reflexivity | reflexivity | discriminate].
Defined.

(** X12.  No move of the alphabet leaves a solved valid cube solved. *)
Theorem move_unsolves (m : string) (s : cube) :
  is_solved s = true → is_valid s = true → m ∈ alphabet →
  is_solved (state_of (apply_move m s)) = false.
Proof.
  intros Hs [_ Hnd]%is_valid_counts Hm.
  apply not_true_iff_false. intros Hs'.
  rewrite is_solved_spec in Hs, Hs'.
  pose proof (Hs Up) as Hu. pose proof (Hs Down) as Hd.
  pose proof (Hs Front) as Hf. pose proof (Hs Back) as Hb.
  pose proof (Hs Right) as Hr. pose proof (Hs Left) as Hl. clear Hs.
  destruct_cube s.
  cbv [get_face_flat center cell get_row range3 map concat app replicate
       faces face_row row_get
       faces_up faces_down faces_front faces_back faces_right faces_left
       r0 r1 r2 c0 c1 c2] in Hu, Hd, Hf, Hb, Hr, Hl.
  simplify_eq.
  cbv [centers center cell get_row face_keys map faces face_row row_get
       faces_up faces_down faces_front faces_back faces_right faces_left
       r0 r1 r2 c0 c1 c2] in Hnd.
  repeat (apply NoDup_cons in Hnd as [? Hnd]).
  repeat match goal with
  | H : _ ∉ _ :: _ |- _ => apply not_elem_of_cons in H as [? ?]
  end.
  rewrite alphabet_eq in Hm.
  list_cases Hm;
    [ pose proof (Hs' Front) as H' | pose proof (Hs' Front) as H'
    | pose proof (Hs' Front) as H' | pose proof (Hs' Front) as H'
    | pose proof (Hs' Front) as H' | pose proof (Hs' Front) as H'
    | pose proof (Hs' Front) as H' | pose proof (Hs' Front) as H'
    | pose proof (Hs' Front) as H' | pose proof (Hs' Front) as H'
    | pose proof (Hs' Front) as H' | pose proof (Hs' Front) as H'
    | pose proof (Hs' Up) as H' | pose proof (Hs' Up) as H'
    | pose proof (Hs' Up) as H' | pose proof (Hs' Up) as H'
    | pose proof (Hs' Up) as H' | pose proof (Hs' Up) as H' ];
    vm_compute in H'; congruence.
Qed.

Lemma move_unsolves_witness :
  is_solved (state_of (apply_move "B2" new)) = false.
Proof. apply (move_unsolves "B2" new); [reflexivity | reflexivity | decided]. Defined.

(** * Further properties of the solver adapter *)

(** X13.  On a cube that [is_valid] rejects, [solve] returns the empty list
    and makes no call to [kociemba.solve]. *)
Theorem solve_invalid_no_call (kociemba_solve : string → reply) (c : cube) :
  is_valid c = false →
  solve kociemba_solve (solver_init c)
  = {| calls := []; solution_after := []; returned := inr [] |}.
Proof.
  intros H. unfold solve, solver_init, copy. cbn [solver_cube].
  rewrite H. by destruct (is_solved c).
Qed.

Lemma solve_invalid_no_call_witness :
  solve (λ _, Returns "U") (solver_init stray_cube)
  = {| calls := []; solution_after := []; returned := inr [] |}.
Proof. apply (solve_invalid_no_call (λ _, Returns "U") stray_cube). reflexivity. Defined.

(** Splitting a string of tokens. *)
Lemma string_app_assoc (a b c : string) : (a ++ b) ++ c = a ++ (b ++ c).
Proof.
  induction a as [|x a IH]; [done|].
  change (String x ((a ++ b) ++ c) = String x (a ++ (b ++ c))). by rewrite IH.
Qed.

Lemma string_app_empty_r (a : string) : a ++ "" = a.
Proof.
  induction a as [|x a IH]; [done|].
  change (String x (a ++ "") = String x a). by rewrite IH.
Qed.

Lemma string_app_nonempty (a b : string) : b ≠ "" → a ++ b ≠ "".
Proof. destruct a; [done|]. intros _. discriminate. Qed.

Lemma split_from_chars (t cur rest : string) :
  forallb (λ a, negb (isspace a)) (String.list_ascii_of_string t) = true →
  split_from cur (t ++ rest) = split_from (cur ++ t) rest.
Proof.
  revert cur. induction t as [|a t IH]; intros cur H.
  - by rewrite string_app_empty_r.
  - cbn [String.list_ascii_of_string forallb] in H.
    apply andb_true_iff in H as [Ha Ht].
    change (String a t ++ rest) with (String a (t ++ rest)).
    cbn [split_from]. destruct (isspace a); [done|].
    rewrite (IH _ Ht), string_app_assoc. reflexivity.
Qed.

Lemma split_join (tokens : list string) :
  forallb is_token tokens = true → split (join_spaces tokens) = tokens.
Proof.
  unfold split. induction tokens as [|t rest IH]; [done|].
  cbn [forallb]. intros [Ht Hrest]%andb_true_iff.
  unfold is_token in Ht. apply andb_true_iff in Ht as [Hne Hch].
  apply negb_true_iff in Hne.
  destruct rest as [|t' rest'].
  - cbn [join_spaces]. rewrite <- (string_app_empty_r t) at 1.
    rewrite (split_from_chars t "" "" Hch). cbn [split_from].
    change ("" ++ t) with t. by rewrite Hne.
  - change (join_spaces (t :: t' :: rest'))
      with (t ++ (" " ++ join_spaces (t' :: rest'))).
    rewrite (split_from_chars t "" _ Hch).
    change ("" ++ t) with t.
    change (" " ++ join_spaces (t' :: rest'))
      with (String " " (join_spaces (t' :: rest'))).
    cbn [split_from]. change (isspace " ") with true. cbn match.
    rewrite Hne. f_equal. by apply IH.
Qed.

Lemma alphabet_tokens (ms : list string) :
  Forall (λ m, m ∈ alphabet) ms → forallb is_token ms = true.
Proof.
  induction 1 as [|m ms Hm _ IH]; [done|].
  cbn [forallb]. rewrite IH, andb_true_r.
  rewrite alphabet_eq in Hm. list_cases Hm; reflexivity.
Qed.

(** X14.  On a valid cube that is not solved, [solve] calls
    [kociemba.solve] once, with the encoded cube; when the call returns a
    string, [solve] returns its whitespace-separated tokens.  In
    particular, when the string is a list of moves of the alphabet joined
    by single spaces, [solve] returns that list of moves. *)
Theorem solve_returns_collaborator_tokens
    (kociemba_solve : string → reply) (c : cube) :
  is_solved c = false → is_valid c = true →
  ∃ cube_str, _to_kociemba_string c = inr cube_str ∧
    (∀ solution_str, kociemba_solve cube_str = Returns solution_str →
       solve kociemba_solve (solver_init c)
       = {| calls := [cube_str]; solution_after := split solution_str;
            returned := inr (split solution_str) |}) ∧
    (∀ ms, Forall (λ m, m ∈ alphabet) ms →
       kociemba_solve cube_str = Returns (join_spaces ms) →
       returned (solve kociemba_solve (solver_init c)) = inr ms).
Proof.
  intros Hs Hv. destruct (valid_encoding c Hv) as (cube_str & Henc & _).
  exists cube_str. split; [done|].
  assert (∀ solution_str, kociemba_solve cube_str = Returns solution_str →
       solve kociemba_solve (solver_init c)
       = {| calls := [cube_str]; solution_after := split solution_str;
            returned := inr (split solution_str) |}) as Hrun.
  { intros solution_str Hk. unfold solve, solver_init, copy. cbn [solver_cube].
    rewrite Hs, Hv. cbn [negb]. by rewrite Henc, Hk. }
  split; [done|]. intros ms Hms Hk. rewrite (Hrun _ Hk). cbn [returned].
  by rewrite split_join by by apply alphabet_tokens.
Qed.

Lemma solve_returns_collaborator_tokens_witness :
  ∃ cube_str, _to_kociemba_string after_U = inr cube_str ∧
    (∀ solution_str, (λ _, Returns "U'") cube_str = Returns solution_str →
       solve (λ _, Returns "U'") (solver_init after_U)
       = {| calls := [cube_str]; solution_after := split solution_str;
            returned := inr (split solution_str) |}) ∧
    (∀ ms, Forall (λ m, m ∈ alphabet) ms →
       (λ _, Returns "U'") cube_str = Returns (join_spaces ms) →
       returned (solve (λ _, Returns "U'") (solver_init after_U)) = inr ms).
Proof.
  apply (solve_returns_collaborator_tokens (λ _, Returns "U'") after_U);
    reflexivity.
Defined.

(** X15.  For every cube and every behaviour of [kociemba.solve], [solve]
    returns a list and lets no exception through; [self.solution] is that
    list; it makes no call when the cube is solved or invalid and
    otherwise exactly one call, whose argument is the 54-character
    encoding of the cube. *)
Theorem solve_total (kociemba_solve : string → reply) (c : cube) :
  ∃ moves,
    returned (solve kociemba_solve (solver_init c)) = inr moves ∧
    solution_after (solve kociemba_solve (solver_init c)) = moves ∧
    if is_solved c || negb (is_valid c)
    then calls (solve kociemba_solve (solver_init c)) = [] ∧ moves = []
    else ∃ cube_str,
      calls (solve kociemba_solve (solver_init c)) = [cube_str] ∧
      _to_kociemba_string c = inr cube_str ∧ String.length cube_str = 54.
Proof.
  unfold solve, solver_init, copy. cbn [solver_cube].
  destruct (is_solved c); [by exists []|].
  destruct (is_valid c) eqn:Hv; [|by exists []].
  cbn [negb orb]. destruct (valid_encoding c Hv) as (cube_str & Henc & Hlen).
  rewrite Henc.
  destruct (kociemba_solve cube_str); cbn [returned solution_after calls];
    (eexists; split; [reflexivity|]; split; [reflexivity|]);
    by exists cube_str.
Qed.

(** * Further properties of the encoding *)

(** Every binding of [color_map] sends the centre colour of a face to the
    letter paired with that face. *)
Lemma color_map_binding (s : cube) (x : color) (letter : string) :
  kociemba_color_map s !! x = Some letter →
  ∃ n, center s n = x ∧ (n, letter) ∈ zip face_order face_letters.
Proof.
  unfold kociemba_color_map, face_order, face_letters.
  cbn [zip zip_with foldl fst snd]. intros H.
  repeat match type of H with
  | <[center s ?n := _]> _ !! x = Some _ =>
      rewrite lookup_insert in H; case_decide;
        [injection H as <-; exists n; split; [done | decided] |]
  end.
  by rewrite lookup_empty in H.
Qed.

(** The keys of [color_map] are the centre colours. *)
Lemma color_map_keys (s : cube) (x : color) :
  is_Some (kociemba_color_map s !! x) ↔ x ∈ centers s.
Proof.
  split.
  - intros [letter (n & <- & _)%color_map_binding].
    unfold centers. apply list_elem_of_fmap. exists n.
    split; [done | destruct n; decided].
  - intros Hx. destruct (color_map_centers s x Hx) as (letter & H & _).
    by exists letter.
Qed.

Lemma zip_letter_char (n : face_name) (letter : string) :
  (n, letter) ∈ zip face_order face_letters → ∃ a, letter = String a "".
Proof.
  unfold face_order, face_letters. cbn [zip zip_with]. intros H.
  tuple_cases H; by eexists.
Qed.

Lemma color_map_chars (s : cube) (x : color) (letter : string) :
  kociemba_color_map s !! x = Some letter → ∃ a, letter = String a "".
Proof. intros (n & _ & H)%color_map_binding. by apply (zip_letter_char n). Qed.

(** Distinct centres: the centre colour determines the face. *)
Lemma centers_inj (s : cube) (n n' : face_name) :
  NoDup (centers s) → center s n = center s n' → n = n'.
Proof.
  unfold centers, face_keys. cbn [map]. intros Hnd.
  repeat (apply NoDup_cons in Hnd as [? Hnd]).
  repeat match goal with
  | H : _ ∉ _ :: _ |- _ => apply not_elem_of_cons in H as [? ?]
  end.
  destruct n, n'; intros Heq; congruence.
Qed.

Lemma color_map_center (s : cube) (n : face_name) (letter : string) :
  NoDup (centers s) → (n, letter) ∈ zip face_order face_letters →
  kociemba_color_map s !! center s n = Some letter.
Proof.
  intros Hnd Hz.
  assert (center s n ∈ centers s) as Hin.
  { unfold centers. apply list_elem_of_fmap. exists n.
    split; [done | destruct n; decided]. }
  apply color_map_keys in Hin as [l Hl]. rewrite Hl. f_equal.
  apply color_map_binding in Hl as (n' & Hc & Hz').
  apply (centers_inj s _ _ Hnd) in Hc. subst n'.
  unfold face_order, face_letters in Hz, Hz'. cbn [zip zip_with] in Hz, Hz'.
  tuple_cases Hz; tuple_cases Hz'; done.
Qed.

(** The translation loop, character by character. *)
Lemma list_ascii_app (a b : string) :
  String.list_ascii_of_string (a ++ b)
  = (String.list_ascii_of_string a ++ String.list_ascii_of_string b)%list.
Proof.
  induction a as [|x a IH]; [done|].
  change (String x a ++ b) with (String x (a ++ b)).
  cbn [String.list_ascii_of_string]. by rewrite IH.
Qed.

Lemma translate_cells_chars
    (color_map : gmap color string) (cells : list color) :
  (∀ x letter, color_map !! x = Some letter → ∃ a, letter = String a "") →
  ∀ cube_str out, translate_cells color_map cells cube_str = inr out →
  ∃ chars,
    String.list_ascii_of_string out
    = (String.list_ascii_of_string cube_str ++ chars)%list ∧
    Forall2 (λ x a, color_map !! x = Some (String a "")) cells chars.
Proof.
  intros Hch. induction cells as [|x cells IH]; intros cube_str out H.
  - injection H as <-. exists []. by rewrite app_nil_r.
  - cbn [translate_cells] in H.
    destruct (color_map !! x) as [letter|] eqn:Hx; [|done].
    destruct (Hch x letter Hx) as [a ->].
    destruct (IH _ _ H) as (chars & Hout & Hall).
    exists (a :: chars). split; [|by constructor].
    rewrite Hout, list_ascii_app. cbn [String.list_ascii_of_string].
    by rewrite <- app_assoc.
Qed.

(** The translation loop stops at the first cell that is no key. *)
Lemma translate_cells_error
    (color_map : gmap color string) (cells : list color)
    (cube_str : string) (e : exn) :
  translate_cells color_map cells cube_str = inl e ↔
  ∃ before x after,
    cells = (before ++ x :: after)%list ∧
    Forall (λ y, is_Some (color_map !! y)) before ∧
    color_map !! x = None ∧ e = KeyError x.
Proof.
  revert cube_str. induction cells as [|y cells IH]; intros cube_str.
  - split; [done|]. intros (before & x & after & H & _). by destruct before.
  - cbn [translate_cells]. destruct (color_map !! y) as [letter|] eqn:Hy.
    + rewrite IH. split.
      * intros (before & x & after & -> & Hb & Hx & ->).
        exists (y :: before), x, after. split; [done|].
        split; [constructor; [by eexists | done] | done].
      * intros (before & x & after & Hc & Hb & Hx & ->).
        destruct before as [|y' before].
        { injection Hc as -> _. congruence. }
        injection Hc as -> ->. apply Forall_cons in Hb as [_ Hb].
        by exists before, x, after.
    + split.
      * intros [= <-]. by exists [], y, cells.
      * intros (before & x & after & Hc & Hb & Hx & ->).
        destruct before as [|y' before].
        { by injection Hc as -> _. }
        injection Hc as -> _. apply Forall_cons in Hb as [[? Hs] _]. congruence.
Qed.

(** X17.  The encoding returns a string exactly when every cell holds the
    colour of some centre.  Otherwise it raises [KeyError] for the first
    cell, in the order up, right, front, down, left, back and row by row,
    whose colour is no centre colour. *)
Theorem encoding_fails_at_first_stray_cell (s : cube) :
  ((∃ cube_str, _to_kociemba_string s = inr cube_str) ↔
     ∀ x, x ∈ all_cells s → x ∈ centers s) ∧
  (∀ e, _to_kociemba_string s = inl e ↔
     ∃ before x after,
       kociemba_cells s = (before ++ x :: after)%list ∧
       (∀ y, y ∈ before → y ∈ centers s) ∧
       (x ∉ centers s) ∧ e = KeyError x).
Proof.
  assert (∀ e, _to_kociemba_string s = inl e ↔
     ∃ before x after,
       kociemba_cells s = (before ++ x :: after)%list ∧
       (∀ y, y ∈ before → y ∈ centers s) ∧
       (x ∉ centers s) ∧ e = KeyError x) as Herr.
  { intros e. unfold _to_kociemba_string. rewrite translate_cells_error.
    split; intros (before & x & after & Hc & Hb & Hx & He);
      exists before, x, after; (split; [done|]); (split; [|split; [|done]]).
    - intros y Hy. rewrite Forall_forall in Hb. by apply color_map_keys, Hb.
    - intros Hin. apply color_map_keys in Hin as [? Hin]. congruence.
    - apply Forall_forall. intros y Hy. by apply color_map_keys, Hb.
    - apply eq_None_not_Some. intros Hs. by apply Hx, color_map_keys. }
  split; [|done]. split.
  - intros [cube_str Hok] x Hx.
    rewrite <- (kociemba_cells_all_cells s) in Hx.
    destruct (decide (Forall (λ y, y ∈ centers s) (kociemba_cells s)))
      as [Hall | Hnot].
    + rewrite Forall_forall in Hall. by apply Hall.
    + apply not_Forall_Exists in Hnot; [|apply _].
      apply Exists_exists in Hnot as (y & Hy & Hyc).
      exfalso. clear x Hx.
      assert (∃ e, _to_kociemba_string s = inl e) as [e He]; [|congruence].
      unfold _to_kociemba_string.
      destruct (translate_cells (kociemba_color_map s) (kociemba_cells s) "")
        as [e | out] eqn:Ht; [by exists e|].
      destruct (translate_cells_chars _ _ (color_map_chars s) _ _ Ht)
        as (chars & _ & Hall).
      apply list_elem_of_lookup in Hy as [i Hi].
      destruct (Forall2_lookup_l _ _ _ _ _ Hall Hi) as (a & _ & Ha).
      exfalso. apply Hyc, color_map_keys. by eexists.
  - intros Hall.
    destruct (translate_cells_ok (kociemba_color_map s) (kociemba_cells s))
      with (cube_str := "") as (out & Hout & _).
    + intros x Hx. apply color_map_centers, Hall.
      by rewrite <- (kociemba_cells_all_cells s).
    + by exists out.
Qed.

Lemma sum_list_with_ext_in (f g : color → nat) (l : list color) :
  (∀ x, x ∈ l → f x = g x) → sum_list_with f l = sum_list_with g l.
Proof.
  induction l as [|y l IH]; intros H; [done|]. cbn [sum_list_with].
  rewrite (H y) by apply list_elem_of_here. rewrite IH; [done|].
  intros x Hx. by apply H, list_elem_of_further.
Qed.

Lemma char_count_translated
    (color_map : gmap color string) (cells : list color) (chars : list ascii)
    (a : ascii) :
  Forall2 (λ x b, color_map !! x = Some (String b "")) cells chars →
  char_count a chars
  = sum_list_with
      (λ x, if bool_decide (color_map !! x = Some (String a "")) then 1 else 0)
      cells.
Proof.
  induction 1 as [|x b cells chars Hx _ IH]; [done|].
  unfold char_count in *. cbn [sum_list_with]. rewrite IH, Hx.
  repeat case_bool_decide; simplify_eq; done.
Qed.

(** X16.  The encoding of a valid cube: each character is the letter of
    the face whose centre has the colour of the cell at that position; the
    characters at the six centre positions are U, R, F, D, L, B in that
    order; and each of these six letters occurs exactly nine times. *)
Theorem valid_encoding_letters (s : cube) :
  is_valid s = true →
  ∃ cube_str, _to_kociemba_string s = inr cube_str ∧
    let chars := String.list_ascii_of_string cube_str in
    Forall2 (λ x a, ∃ n, center s n = x ∧
                         (n, String a "") ∈ zip face_order face_letters)
            (kociemba_cells s) chars ∧
    (λ i, chars !! i) <$> center_positions = Some <$> letter_chars ∧
    Forall (λ a, char_count a chars = 9) letter_chars.
Proof.
  intros Hv. destruct (valid_encoding s Hv) as (cube_str & Henc & _).
  exists cube_str. split; [done|]. cbn zeta.
  unfold _to_kociemba_string in Henc.
  destruct (translate_cells_chars _ _ (color_map_chars s) _ _ Henc)
    as (chars & Hout & Hall).
  cbn [String.list_ascii_of_string app] in Hout. rewrite Hout. clear Hout.
  destruct (is_valid_counts s Hv) as [Hocc Hnd].
  assert (∀ n letter, (n, letter) ∈ zip face_order face_letters →
            kociemba_color_map s !! center s n = Some letter) as Hcen
    by (intros; by apply color_map_center).
  split; [|split].
  - eapply Forall2_impl; [exact Hall|]. intros x a Hx.
    by apply color_map_binding in Hx.
  - assert (∀ i n a, kociemba_cells s !! i = Some (center s n) →
              (n, String a "") ∈ zip face_order face_letters →
              chars !! i = Some a) as Hpos.
    { intros i n a Hi Hz.
      destruct (Forall2_lookup_l _ _ _ _ _ Hall Hi) as (b & Hb & Hl).
      rewrite (Hcen n _ Hz) in Hl. by simplify_eq. }
    unfold center_positions, letter_chars. cbn [fmap list_fmap].
    rewrite (Hpos 4 Up "U"%char), (Hpos 13 Right "R"%char),
      (Hpos 22 Front "F"%char), (Hpos 31 Down "D"%char),
      (Hpos 40 Left "L"%char), (Hpos 49 Back "B"%char);
      by (done || decided || (destruct_cube s; reflexivity)).
  - assert (∀ n a, (n, String a "") ∈ zip face_order face_letters →
              char_count a chars = 9) as Hcount.
    { intros n a Hz. rewrite (char_count_translated _ _ _ a Hall).
      rewrite (sum_list_with_ext_in _
        (λ x, if bool_decide (x = center s n) then 1 else 0)).
      - fold (occ (center s n) (kociemba_cells s)). unfold occ.
        rewrite (kociemba_cells_all_cells s). fold (occ (center s n) (all_cells s)).
        rewrite Forall_forall in Hocc. apply Hocc.
        rewrite <- (valid_centers_six s Hv). unfold centers.
        apply list_elem_of_fmap. exists n. split; [done | destruct n; decided].
      - intros x Hx. rewrite (kociemba_cells_all_cells s) in Hx.
        apply (valid_cells_centers s x Hv) in Hx.
        unfold centers in Hx. apply list_elem_of_fmap in Hx as (n' & -> & _).
        destruct (decide (n' = n)) as [-> | Hne].
        + rewrite (Hcen n _ Hz). by rewrite !bool_decide_eq_true_2.
        + rewrite (bool_decide_eq_false_2 (center s n' = center s n))
            by (intros Heq; by apply Hne, (centers_inj s)).
          rewrite bool_decide_eq_false_2; [done|]. intros Hl.
          apply color_map_binding in Hl as (n'' & Hc & Hz'').
          apply (centers_inj s _ _ Hnd) in Hc. subst n''.
          apply Hne. clear -Hz Hz''.
          unfold face_order, face_letters in Hz, Hz''.
          cbn [zip zip_with] in Hz, Hz''.
          tuple_cases Hz; tuple_cases Hz''; done. }
    unfold letter_chars.
    repeat (apply Forall_cons; split); [.. | constructor].
    + apply (Hcount Up). decided.
    + apply (Hcount Right). decided.
    + apply (Hcount Front). decided.
    + apply (Hcount Down). decided.
    + apply (Hcount Left). decided.
    + apply (Hcount Back). decided.
Qed.

Lemma valid_encoding_letters_witness :
  ∃ cube_str, _to_kociemba_string after_U = inr cube_str ∧
    let chars := String.list_ascii_of_string cube_str in
    Forall2 (λ x a, ∃ n, center after_U n = x ∧
                         (n, String a "") ∈ zip face_order face_letters)
            (kociemba_cells after_U) chars ∧
    (λ i, chars !! i) <$> center_positions = Some <$> letter_chars ∧
    Forall (λ a, char_count a chars = 9) letter_chars.
Proof. apply (valid_encoding_letters after_U). reflexivity. Defined.

(** * Recolouring *)

Lemma center_recolor (f : color → color) (s : cube) (n : face_name) :
  center (recolor f s) n = f (center s n).
Proof. by destruct n. Qed.

Lemma kociemba_cells_recolor (f : color → color) (s : cube) :
  kociemba_cells (recolor f s) = f <$> kociemba_cells s.
Proof. destruct_cube s. reflexivity. Qed.

Lemma lookup_insert_inj (f : color → color) `{!Inj (=) (=) f}
    (m m' : gmap color string) (k x : color) (v : string) :
  m' !! f x = m !! x → <[f k := v]> m' !! f x = <[k := v]> m !! x.
Proof.
  intros H. rewrite !lookup_insert, H.
  destruct (decide (f k = f x)) as [Heq | Hne];
    destruct (decide (k = x)) as [Heq' | Hne']; try done.
  - by apply (inj f) in Heq.
  - by subst.
Qed.

Lemma color_map_recolor (f : color → color) `{!Inj (=) (=) f}
    (s : cube) (x : color) :
  kociemba_color_map (recolor f s) !! f x = kociemba_color_map s !! x.
Proof.
  unfold kociemba_color_map, face_order, face_letters.
  cbn [zip zip_with foldl fst snd]. rewrite !center_recolor.
  repeat apply lookup_insert_inj; [apply _ ..|]. by rewrite !lookup_empty.
Qed.

Lemma translate_cells_recolor (f : color → color)
    (m m' : gmap color string) (cells : list color) (cube_str : string) :
  (∀ x, m' !! f x = m !! x) →
  translate_cells m' (f <$> cells) cube_str
  = match translate_cells m cells cube_str with
    | inr out => inr out
    | inl (KeyError x) => inl (KeyError (f x))
    | inl e => inl e
    end.
Proof.
  intros H. revert cube_str. induction cells as [|x cells IH]; intros cube_str.
  - reflexivity.
  - cbn [fmap list_fmap translate_cells]. rewrite H.
    destruct (m !! x); [apply IH | done].
Qed.

(** X18.  Colours are data: renaming the colours of a cube by an injective
    function changes neither the value of [is_solved] nor the encoded
    string; when the encoding raises, it raises for the renamed colour of
    the same cell. *)
Theorem recoloring_invariance (f : color → color) (s : cube) :
  Inj (=) (=) f →
  is_solved (recolor f s) = is_solved s ∧
  _to_kociemba_string (recolor f s)
  = match _to_kociemba_string s with
    | inr cube_str => inr cube_str
    | inl (KeyError x) => inl (KeyError (f x))
    | inl e => inl e
    end.
Proof.
  intros Hinj. split.
  - assert (∀ a b, bool_decide (f a = f b) = bool_decide (a = b)) as Hdec.
    { intros a b. apply bool_decide_ext. split; [apply Hinj | congruence]. }
    destruct_cube s. unfold is_solved, face_keys, recolor.
    cbn [forallb faces face_rows row_cells face_row row_get
         recolor_face recolor_row
         faces_up faces_down faces_front faces_back faces_right faces_left
         r0 r1 r2 c0 c1 c2].
    by rewrite !Hdec.
  - unfold _to_kociemba_string. rewrite kociemba_cells_recolor.
    apply translate_cells_recolor. intros x. by apply color_map_recolor.
Qed.

Lemma recoloring_invariance_witness :
  is_solved (recolor (String "x") after_U) = is_solved after_U ∧
  _to_kociemba_string (recolor (String "x") after_U)
  = match _to_kociemba_string after_U with
    | inr cube_str => inr cube_str
    | inl (KeyError x) => inl (KeyError (String "x" x))
    | inl e => inl e
    end.
Proof.
  apply (recoloring_invariance (String "x") after_U).
  intros a b H. by injection H.
Defined.

(** * Properties of the solving routes *)

Lemma route_faces_known (k : string) :
  k ∈ route_faces → ∃ n, face_of_key k = Some n.
Proof. intros H. unfold route_faces in H. list_cases H; by eexists. Qed.

Lemma set_face_grid (k : string) (n : face_name) (colors : list color) (s : cube) :
  face_of_key k = Some n → length colors = 9 →
  set_face k colors s = Ok (set_faces n (face_of_list colors) s).
Proof.
  intros Hk Hlen. unfold set_face. rewrite Hk.
  by do 10 (destruct colors as [|? colors]; try discriminate Hlen).
Qed.

Lemma set_face_ok_length (k : string) (colors : list color) (s s' : cube) :
  set_face k colors s = Ok s' → length colors = 9.
Proof.
  unfold set_face. destruct (face_of_key k); [|done].
  by do 10 (destruct colors as [|? colors]; try done).
Qed.

(** The loop over the six faces, when the object has them all. *)
Lemma load_faces_complete (cube_data : cube_json) (s : cube) :
  complete cube_data →
  load_faces cube_data route_faces s = Ok (cube_of_json cube_data).
Proof.
  intros Hc.
  destruct (Hc "up") as (cu & Hu & Lu); [decided|].
  destruct (Hc "right") as (cr & Hr & Lr); [decided|].
  destruct (Hc "front") as (cf & Hf & Lf); [decided|].
  destruct (Hc "down") as (cd & Hd & Ld); [decided|].
  destruct (Hc "left") as (cl & Hl & Ll); [decided|].
  destruct (Hc "back") as (cb & Hb & Lb); [decided|].
  unfold route_faces, cube_of_json. cbn [load_faces].
  rewrite Hu, Hr, Hf, Hd, Hl, Hb. cbn [default].
  rewrite (set_face_grid "up" Up) by done. cbn [and_then].
  rewrite (set_face_grid "right" Right) by done. cbn [and_then].
  rewrite (set_face_grid "front" Front) by done. cbn [and_then].
  rewrite (set_face_grid "down" Down) by done. cbn [and_then].
  rewrite (set_face_grid "left" Left) by done. cbn [and_then].
  rewrite (set_face_grid "back" Back) by done.
  by destruct s.
Qed.

(** The loop returns only when the object has the faces it visits. *)
Lemma load_faces_ok (cube_data : cube_json) (names : list string) (s s' : cube) :
  load_faces cube_data names s = Ok s' →
  ∀ k, k ∈ names → ∃ colors, cube_data !! k = Some colors ∧ length colors = 9.
Proof.
  revert s. induction names as [|k0 names IH]; intros s H k Hk.
  - by apply elem_of_nil in Hk.
  - cbn [load_faces] in H.
    destruct (cube_data !! k0) as [colors|] eqn:Hk0; [|done].
    destruct (set_face k0 colors s) as [s1|] eqn:Hset; [|done].
    cbn [and_then] in H. apply elem_of_cons in Hk as [-> | Hk].
    + exists colors. split; [done|]. by apply (set_face_ok_length k0 _ s s1).
    + by apply (IH s1).
Qed.

Lemma load_faces_app (cube_data : cube_json) (names1 names2 : list string)
    (s : cube) :
  load_faces cube_data (names1 ++ names2) s
  = and_then (load_faces cube_data names1 s) (load_faces cube_data names2).
Proof.
  revert s. induction names1 as [|k names1 IH]; intros s; [done|].
  cbn [app load_faces]. destruct (cube_data !! k); [|done].
  destruct (set_face k l s); [apply IH | done].
Qed.

Lemma load_faces_prefix (cube_data : cube_json) (names : list string) (s : cube) :
  (∀ k, k ∈ names → k ∈ route_faces ∧
     ∃ colors, cube_data !! k = Some colors ∧ length colors = 9) →
  ∃ s', load_faces cube_data names s = Ok s'.
Proof.
  revert s. induction names as [|k names IH]; intros s H; [by exists s|].
  destruct (H k) as [Hk (colors & Hc & Hl)]; [apply list_elem_of_here|].
  destruct (route_faces_known k Hk) as [n Hn].
  cbn [load_faces]. rewrite Hc, (set_face_grid k n) by done. cbn [and_then].
  apply IH. intros k' Hk'. by apply H, list_elem_of_further.
Qed.

(** What the routes do after a successful load. *)
Lemma solve_returns (kociemba_solve : string → reply) (c : cube) :
  ∃ solution,
    returned (solve kociemba_solve (solver_init c)) = inr solution ∧
    (is_solved c = true →
       solution = [] ∧ calls (solve kociemba_solve (solver_init c)) = []).
Proof.
  unfold solve, solver_init, copy. cbn [solver_cube].
  destruct (is_solved c); [by exists []|].
  destruct (is_valid c) eqn:Hv; [|by exists []].
  cbn [negb]. destruct (valid_encoding c Hv) as (cube_str & -> & _).
  destruct (kociemba_solve cube_str); by eexists.
Qed.

(** X19.  [solve_manual] on a JSON object that has the six faces with nine
    colours each: the cube it builds has exactly these faces, whatever the
    colours of the constructor's cube.  If [is_valid] rejects it the answer
    is status 400 with no call to [kociemba.solve]; otherwise the answer is
    status 200 with the list [solve] returns and [move_count] equal to its
    length, and for a solved cube that list is empty and no call is made. *)
Theorem solve_manual_complete
    (kociemba_solve : string → reply) (cube_data : cube_json) :
  complete cube_data →
  (∀ k colors, k ∈ route_faces → cube_data !! k = Some colors →
     get_face_flat_key k (cube_of_json cube_data) = inr colors) ∧
  if is_valid (cube_of_json cube_data) then
    ∃ solution,
      solve_manual kociemba_solve cube_data
      = RouteRun (Response 200 (SolvedBody solution (length solution)))
          (calls (solve kociemba_solve (solver_init (cube_of_json cube_data)))) ∧
      returned (solve kociemba_solve (solver_init (cube_of_json cube_data)))
      = inr solution ∧
      (is_solved (cube_of_json cube_data) = true →
         solve_manual kociemba_solve cube_data
         = RouteRun (Response 200 (SolvedBody [] 0)) [])
  else
    solve_manual kociemba_solve cube_data
    = RouteRun (Response 400 (ErrorText "Invalid cube configuration")) [].
Proof.
  intros Hc. split.
  - intros k colors Hk Hcol. destruct (Hc k Hk) as (colors' & Hcol' & Hlen).
    assert (colors' = colors) as -> by congruence.
    unfold get_face_flat_key, cube_of_json.
    do 10 (destruct colors as [|? colors]; try discriminate Hlen).
    unfold route_faces in Hk.
    list_cases Hk; cbv [face_of_key String.eqb Ascii.eqb Bool.eqb];
      unfold get_face_flat; cbn [faces faces_up faces_down faces_front
        faces_back faces_right faces_left];
      rewrite Hcol; reflexivity.
  - unfold solve_manual. rewrite (load_faces_complete _ _ Hc).
    destruct (is_valid (cube_of_json cube_data)); [|done]. cbn [negb].
    destruct (solve_returns kociemba_solve (cube_of_json cube_data))
      as (solution & Hret & Hsolved).
    exists solution. rewrite Hret. split; [done|]. split; [done|].
    intros Hs. destruct (Hsolved Hs) as [-> ->]. reflexivity.
Qed.

Lemma json_of_cube_complete (s : cube) : complete (json_of_cube s).
Proof.
  intros k Hk. unfold route_faces in Hk.
  list_cases Hk; eexists; split; reflexivity.
Qed.

Lemma solve_manual_complete_witness :
  (∀ k colors, k ∈ route_faces → json_of_cube after_U !! k = Some colors →
     get_face_flat_key k (cube_of_json (json_of_cube after_U)) = inr colors) ∧
  if is_valid (cube_of_json (json_of_cube after_U)) then
    ∃ solution,
      solve_manual (λ _, Returns "U'") (json_of_cube after_U)
      = RouteRun (Response 200 (SolvedBody solution (length solution)))
          (calls (solve (λ _, Returns "U'")
                    (solver_init (cube_of_json (json_of_cube after_U))))) ∧
      returned (solve (λ _, Returns "U'")
                  (solver_init (cube_of_json (json_of_cube after_U))))
      = inr solution ∧
      (is_solved (cube_of_json (json_of_cube after_U)) = true →
         solve_manual (λ _, Returns "U'") (json_of_cube after_U)
         = RouteRun (Response 200 (SolvedBody [] 0)) [])
  else
    solve_manual (λ _, Returns "U'") (json_of_cube after_U)
    = RouteRun (Response 400 (ErrorText "Invalid cube configuration")) [].
Proof.
  apply (solve_manual_complete (λ _, Returns "U'") (json_of_cube after_U)).
  intros k Hk. unfold route_faces in Hk.
  list_cases Hk; eexists; split; reflexivity.
Defined.

(** X20.  [solve_manual] on a JSON object that lacks a face, or holds a
    face without exactly nine colours: the answer is status 500, built from
    the exception of the first such face in the order up, right, front,
    down, left, back ([KeyError] of the name, or the [ValueError] of
    [set_face]), and no call to [kociemba.solve] is made.  Conversely the
    route answers 200 or 400 only for an object with all six faces of nine
    colours. *)
Theorem solve_manual_incomplete
    (kociemba_solve : string → reply) (cube_data : cube_json)
    (before after : list string) (k : string) :
  route_faces = (before ++ k :: after)%list →
  (∀ k', k' ∈ before →
     ∃ colors, cube_data !! k' = Some colors ∧ length colors = 9) →
  (cube_data !! k = None →
     solve_manual kociemba_solve cube_data
     = RouteRun (Response 500 (ErrorOf (KeyError k))) []) ∧
  (∀ colors, cube_data !! k = Some colors → length colors ≠ 9 →
     solve_manual kociemba_solve cube_data
     = RouteRun (Response 500
         (ErrorOf (ValueError "Face must have exactly 9 colors"))) []) ∧
  (status (route_response (solve_manual kociemba_solve cube_data)) ≠ 500 →
     complete cube_data).
Proof.
  intros Hsplit Hbefore.
  assert (∀ k', k' ∈ before ∨ k' = k → k' ∈ route_faces) as Hin.
  { intros k' Hk'. rewrite Hsplit. apply elem_of_app.
    destruct Hk' as [? | ->]; [by left | right; apply list_elem_of_here]. }
  destruct (load_faces_prefix cube_data before new) as [s1 Hs1].
  { intros k' Hk'. split; [apply Hin; by left | by apply Hbefore]. }
  destruct (route_faces_known k) as [n Hn]; [apply Hin; by right|].
  split; [|split].
  - intros Hk. unfold solve_manual.
    rewrite Hsplit, load_faces_app, Hs1. cbn [and_then load_faces].
    by rewrite Hk.
  - intros colors Hk Hlen. unfold solve_manual.
    rewrite Hsplit, load_faces_app, Hs1. cbn [and_then load_faces].
    rewrite Hk. unfold set_face. rewrite Hn.
    by do 10 (destruct colors as [|? colors]; try done).
  - intros Hst. unfold solve_manual in Hst.
    destruct (load_faces cube_data route_faces new) as [s'|] eqn:Hload;
      [|done].
    intros k' Hk'. by apply (load_faces_ok _ _ _ _ Hload).
Qed.

Lemma solve_manual_incomplete_witness :
  (delete "front" (json_of_cube new) !! "front" = None →
     solve_manual (λ _, Returns "U") (delete "front" (json_of_cube new))
     = RouteRun (Response 500 (ErrorOf (KeyError "front"))) []) ∧
  (∀ colors, delete "front" (json_of_cube new) !! "front" = Some colors →
     length colors ≠ 9 →
     solve_manual (λ _, Returns "U") (delete "front" (json_of_cube new))
     = RouteRun (Response 500
         (ErrorOf (ValueError "Face must have exactly 9 colors"))) []) ∧
  (status (route_response
     (solve_manual (λ _, Returns "U") (delete "front" (json_of_cube new)))) ≠ 500 →
     complete (delete "front" (json_of_cube new))).
Proof.
  apply (solve_manual_incomplete (λ _, Returns "U")
           (delete "front" (json_of_cube new)) ["up"; "right"] ["down"; "left"; "back"]
           "front").
  - reflexivity.
  - intros k' Hk'. list_cases Hk'; eexists; split; reflexivity.
Defined.

(** X21.  [solve_vision] resets the captured faces exactly when it answers
    200, and then six faces were captured, all of nine colours, forming a
    valid cube.  Every other answer (400 for no capture, for a number of
    captured faces other than six, or for an invalid cube; 500 for a
    missing or ill-sized face) leaves the captured faces as they were and
    makes no call to [kociemba.solve]. *)
Theorem solve_vision_state
    (kociemba_solve : string → reply) (current_cube_state : option cube_json) :
  let run := (solve_vision kociemba_solve current_cube_state).1 in
  let state' := (solve_vision kociemba_solve current_cube_state).2 in
  (status (route_response run) = 200 ∧ state' = None ∧
   ∃ state, current_cube_state = Some state ∧ size state = 6 ∧
            complete state ∧ is_valid (cube_of_json state) = true ∧
            ∃ solution,
              returned (solve kociemba_solve (solver_init (cube_of_json state)))
              = inr solution ∧
              payload (route_response run)
              = SolvedBody solution (length solution))
  ∨
  ((status (route_response run) = 400 ∨ status (route_response run) = 500) ∧
   state' = current_cube_state ∧ route_calls run = []).
Proof.
  cbn zeta. unfold solve_vision.
  destruct current_cube_state as [state|]; [|right; by repeat split; auto].
  destruct (Nat.eqb (size state) 6) eqn:Hsz; cbn [negb];
    [|right; by repeat split; auto].
  apply Nat.eqb_eq in Hsz.
  destruct (load_faces state route_faces new) as [cube | e s] eqn:Hload;
    [|right; by repeat split; auto].
  assert (complete state) as Hc
    by (intros k Hk; by apply (load_faces_ok _ _ _ _ Hload)).
  rewrite (load_faces_complete _ _ Hc) in Hload. injection Hload as <-.
  destruct (is_valid (cube_of_json state)) eqn:Hv; cbn [negb];
    [|right; by repeat split; auto].
  destruct (solve_returns kociemba_solve (cube_of_json state))
    as (solution & Hret & _).
  rewrite Hret. left. cbn [fst snd route_response status payload].
  split; [done|]. split; [done|]. exists state.
  repeat split; try done. by exists solution.
Qed.

(** * What the encoding and the validity check depend on *)

Lemma Forall2_same_right (P Q : color → ascii → Prop)
    (l1 l2 : list color) (chars : list ascii) :
  (∀ x y a, P x a → Q y a → x = y) →
  Forall2 P l1 chars → Forall2 Q l2 chars → l1 = l2.
Proof.
  intros Hpq H1. revert l2. induction H1 as [|x a l1 chars Hx _ IH];
    intros l2 H2; inversion H2; subst; [done|].
  f_equal; [by eapply Hpq | by apply IH].
Qed.

Lemma zip_letter_face (n n' : face_name) (letter : string) :
  (n, letter) ∈ zip face_order face_letters →
  (n', letter) ∈ zip face_order face_letters → n = n'.
Proof.
  unfold face_order, face_letters. cbn [zip zip_with]. intros H H'.
  tuple_cases H; tuple_cases H'; done.
Qed.

Lemma kociemba_cells_inj (s1 s2 : cube) :
  kociemba_cells s1 = kociemba_cells s2 → s1 = s2.
Proof.
  destruct_cube s1. destruct_cube s2. intros H.
  cbv [kociemba_cells face_order mbind list_bind face_cells face_rows
       row_cells map concat app faces
       faces_up faces_down faces_front faces_back faces_right faces_left
       r0 r1 r2 c0 c1 c2] in H.
  by simplify_eq.
Qed.

(** X23.  Two cubes with the same six centres and the same encoded string
    are the same cube: with the centre colours, the string can be decoded. *)
Theorem encoding_determines_cube (s1 s2 : cube) (cube_str : string) :
  centers s1 = centers s2 →
  _to_kociemba_string s1 = inr cube_str →
  _to_kociemba_string s2 = inr cube_str →
  s1 = s2.
Proof.
  intros Hc H1 H2. apply kociemba_cells_inj.
  unfold _to_kociemba_string in H1, H2.
  destruct (translate_cells_chars _ _ (color_map_chars s1) _ _ H1)
    as (chars1 & Ho1 & Hall1).
  destruct (translate_cells_chars _ _ (color_map_chars s2) _ _ H2)
    as (chars2 & Ho2 & Hall2).
  cbn [String.list_ascii_of_string app] in Ho1, Ho2.
  assert (chars2 = chars1) as -> by congruence.
  eapply Forall2_same_right; [|exact Hall1|exact Hall2].
  intros x y a (n & <- & Hz)%color_map_binding (n' & <- & Hz')%color_map_binding.
  rewrite (zip_letter_face n n' _ Hz Hz').
  unfold centers, face_keys in Hc. cbn [map] in Hc.
  destruct n'; by simplify_eq.
Qed.

Lemma encoding_determines_cube_witness :
  after_U = cube_of_json (json_of_cube after_U).
Proof.
  apply (encoding_determines_cube after_U (cube_of_json (json_of_cube after_U))
           "UUUUUUUUUBBBRRRRRRRRRFFFFFFDDDDDDDDDFFFLLLLLLLLLBBBBBB");
    reflexivity.
Defined.

(** X24.  [is_valid] looks at nothing but how many times each colour occurs
    and at the six centres: two cubes with the same centres whose cells are
    rearrangements of each other get the same verdict, whether or not the
    arrangement can be reached by turning faces. *)
Theorem is_valid_ignores_arrangement (s1 s2 : cube) :
  centers s1 = centers s2 → all_cells s1 ≡ₚ all_cells s2 →
  is_valid s1 = is_valid s2.
Proof.
  intros Hc Hp. rewrite !is_valid_spec, Hc. f_equal.
  unfold six_colors, occ. cbn [forallb]. by rewrite !Hp.
Qed.

Lemma is_valid_ignores_arrangement_witness :
  is_valid new
  = is_valid (set_cell Up I0 I1 "R" (set_cell Front I0 I1 "W" new)).
Proof.
  apply (is_valid_ignores_arrangement new
           (set_cell Up I0 I1 "R" (set_cell Front I0 I1 "W" new)));
    [reflexivity | decided].
Defined.

Lemma moves_keep_centers (ms : list string) (s : cube) :
  Forall (λ m, m ∈ alphabet) ms →
  ∃ s', apply_moves ms s = Ok s' ∧ centers s' = centers s.
Proof.
  intros H. revert s. induction H as [|m ms Hm _ IH]; intros s.
  - by exists s.
  - rewrite apply_moves_cons.
    destruct (move_returns m s Hm) as [s1 Hs1].
    pose proof (move_keeps_centers m s Hm) as Hc.
    rewrite Hs1 in *. cbn [and_then state_of] in *.
    destruct (IH s1) as (s' & Hs' & Hc'). exists s'. split; [done|congruence].
Qed.

(** X22.  The fallback list of [_generate_simple_solution] is made of
    symbols of the alphabet, the slice [[:25]] keeps all 15 of them, and
    applying the list to any cube returns a cube with the same centres and
    the same validity. *)
Theorem fallback_is_playable (s : cube) :
  _generate_simple_solution = fallback ∧
  Forall (λ m, m ∈ alphabet) _generate_simple_solution ∧
  ∃ s', apply_moves _generate_simple_solution s = Ok s' ∧
        centers s' = centers s ∧ is_valid s' = is_valid s.
Proof.
  split; [reflexivity|].
  assert (Forall (λ m, m ∈ alphabet) _generate_simple_solution) as Hall
    by decided.
  split; [done|].
  destruct (moves_keep_validity _ s Hall) as (s' & Hs' & Hv).
  destruct (moves_keep_centers _ s Hall) as (s'' & Hs'' & Hc).
  assert (s'' = s') as -> by congruence.
  by exists s'.
Qed.
